(** * RVEA: reference-vector guided survival selection (pymoo/algorithms/moo/rvea.py)

    A shallow embedding of [calc_gamma], [calc_V], the class [APDSurvival]
    ([__init__], [adapt], [_do]) and of the optimizer shell [RVEA]
    ([_setup], [_advance], [_set_optimum]).

    The numpy arrays of the source are lists (a matrix is a list of rows).
    The array element type is an interface [Num]: the arithmetic and the three
    IEEE comparisons of float64 are its fields, and the numpy primitives
    (minimum, maximum, argmin, sort, matmul, norm) are written on top of it with
    the NaN handling numpy has.  [Libm] holds the two transcendental functions
    the source calls (arccos and the power operator).  The two operations the
    source performs on Python floats rather than on arrays, the division in
    [_advance] and the power in [_do], raise where numpy would return inf or
    NaN: they are [py_div] and [py_pow].  [binary64] instantiates [Num] with
    the kernel's IEEE-754 doubles; the laws of comparison ([NumOrder]) and of
    negation ([NumSign]) that the proofs use are proved for it. *)

From Stdlib Require Import Uint63 PrimFloat FloatOps FloatAxioms SpecFloat.
From Stdlib Require Import ZArith QArith Qabs Lia Bool.
From stdpp Require Import base tactics option list sets sorting.


(** ** The element type of the arrays *)

Class Num (R : Type) := {
  fzero : R;
  fone : R;
  finf : R;                       (* np.inf *)
  feps : R;                       (* the literal 1e-64 *)
  of_nat : nat -> R;              (* an int used in float arithmetic *)
  fadd : R -> R -> R;
  fsub : R -> R -> R;
  fmul : R -> R -> R;
  fdiv : R -> R -> R;
  fopp : R -> R;
  fsqrt : R -> R;
  feqb : R -> R -> bool;          (* x == y *)
  fltb : R -> R -> bool;          (* x < y *)
  fleb : R -> R -> bool;          (* x <= y *)
  fis_integer : R -> bool;        (* y == floor(y), on a finite y *)
}.

(** [np.arccos] and the C function [pow] behind [**]: library functions, not
    part of IEEE arithmetic. *)
Class Libm (R : Type) := {
  arccos : R -> R;
  fpow : R -> R -> R;
}.

(** The order facts of IEEE comparison: [<=] is a total preorder on the
    values that are not NaN, and it is false as soon as one side is NaN. *)
Class NumOrder (R : Type) `{Num R} : Prop := {
  feqb_fleb : forall x y, feqb x y = fleb x y && fleb y x;
  fltb_fleb : forall x y, fltb x y = fleb x y && negb (fleb y x);
  fleb_trans : forall x y z, fleb x y = true -> fleb y z = true -> fleb x z = true;
  fleb_total : forall x y, feqb x x = true -> feqb y y = true ->
                           fleb x y = true \/ fleb y x = true;
  fleb_not_nan : forall x y, fleb x y = true -> feqb x x = true /\ feqb y y = true;
  fleb_fopp : forall x y, fleb (fopp x) (fopp y) = fleb y x;
  fleb_finf : forall x, feqb x x = true -> fleb x finf = true;
  feps_pos : fltb fzero feps = true;
}.

Section Numpy.
Context {R : Type} `{Num R}.

#[export] Instance R_inhabited : Inhabited R := populate fzero.

(** [np.isnan]: NaN is the one value different from itself. *)
Definition is_nan (x : R) : bool := negb (feqb x x).

(** [x >= y] and [x > y] *)
Definition fgeb (x y : R) : bool := fleb y x.
Definition fgtb (x y : R) : bool := fltb y x.

(** Numerical equality of two array elements: [x == y], or both NaN.  It
    ignores the sign of a zero. *)
Definition same (x y : R) : Prop :=
  feqb x y = true \/ (is_nan x = true /\ is_nan y = true).

(** [math.isinf], [math.isfinite] *)
Definition is_inf (x : R) : bool := feqb x finf || feqb x (fopp finf).
Definition is_finite (x : R) : bool := negb (is_nan x) && negb (is_inf x).

(** [x / y] on two Python floats: ZeroDivisionError when the divisor is
    zero, of either sign; [None] is the raised exception. *)
Definition py_div (x y : R) : option R :=
  if feqb y fzero then None else Some (fdiv x y).

(** [for x in xs: body]: an exception raised by the body ends the loop. *)
Fixpoint for_each {S A : Type} (body : S -> A -> option S) (s : S) (xs : list A)
  : option S :=
  match xs with
  | [] => Some s
  | x :: xs' => s' ← body s x; for_each body s' xs'
  end.

(** [np.minimum], [np.maximum]: the first operand wins when it compares
    below (above) the second or is NaN; a NaN in the second operand is kept
    because every comparison with it is false. *)
Definition np_minimum (a b : R) : R := if fleb a b || is_nan a then a else b.
Definition np_maximum (a b : R) : R := if fgeb a b || is_nan a then a else b.

(** Element-wise binary operation on two arrays of the same length. *)
Definition ew (f : R -> R -> R) (a b : list R) : list R := zip_with f a b.

(** [A.min(axis=0)] and [A.max(axis=0)]: the reduction of the rows with the
    element-wise operation; numpy raises ValueError on zero rows. *)
Definition reduce_rows (f : R -> R -> R) (A : list (list R)) : option (list R) :=
  match A with
  | [] => None
  | r :: rs => Some (foldl (ew f) r rs)
  end.
Definition min_axis0 := reduce_rows np_minimum.
Definition max_axis0 := reduce_rows np_maximum.

(** [a.argmin()]: index of the first minimum; a NaN counts as minimal and
    stops the scan.  [mp] is the running minimum, [ind] its index, [i] the
    index of the head of the rest. *)
Fixpoint argmin_scan (mp : R) (ind i : nat) (l : list R) : nat :=
  match l with
  | [] => ind
  | y :: l' =>
      if is_nan mp then ind
      else if negb (fgeb y mp) then argmin_scan y i (S i) l'
      else argmin_scan mp ind (S i) l'
  end.

(** ValueError on an empty sequence. *)
Definition argmin (l : list R) : option nat :=
  match l with
  | [] => None
  | x :: l' => Some (argmin_scan x 0 1 l')
  end.

(** [i] is the first position of a least element of [l]. *)
Definition first_min (l : list R) (i : nat) : Prop :=
  exists m, l !! i = Some m /\
    forall j x, l !! j = Some x ->
      fleb m x = true /\ (j < i -> fleb x m = false).


(** [np.sort] orders floats by [<] with the NaNs last. *)
Definition np_le (a b : R) : Prop := fleb a b || is_nan b = true.

#[export] Instance np_le_dec a b : Decision (np_le a b).
Proof. unfold np_le. apply _. Defined.

Definition np_sort (l : list R) : list R := merge_sort np_le l.

(** [sum(a * b)] accumulated from zero, left to right. *)
Definition dot (a b : list R) : R := foldl fadd fzero (ew fmul a b).

(** [A @ B.T] *)
Definition matmul_T (A B : list (list R)) : list (list R) :=
  map (fun a => map (dot a) B) A.

(** [np.linalg.norm(A, axis=1)] *)
Definition norm (a : list R) : R := fsqrt (foldl fadd fzero (map (fun x => fmul x x) a)).
Definition norm_axis1 (A : list (list R)) : list R := map norm A.

(** [A / d[:, None]]: row [i] divided by [d[i]]. *)
Definition div_rows (A : list (list R)) (d : list R) : list (list R) :=
  zip_with (fun a di => map (fun x => fdiv x di) a) A d.

(** [A * v], [A - v] with the vector [v] broadcast over the rows. *)
Definition mul_rowvec (A : list (list R)) (v : list R) : list (list R) :=
  map (fun a => ew fmul a v) A.
Definition sub_rowvec (A : list (list R)) (v : list R) : list (list R) :=
  map (fun a => ew fsub a v) A.
End Numpy.

(** The sign symmetry of IEEE arithmetic: negation is exact and commutes
    with the product; it commutes with the sum up to the sign of a zero. *)
Class NumSign (R : Type) `{Num R} : Prop := {
  fopp_involutive : forall x, fopp (fopp x) = x;
  fmul_neg_one : forall x, fmul (fopp fone) x = fopp x;
  fmul_fopp_l : forall x y, fmul (fopp x) y = fopp (fmul x y);
  fadd_fopp : forall x y, same (fadd (fopp x) (fopp y)) (fopp (fadd x y));
  fadd_same_l : forall x x' y, same x x' -> same (fadd x y) (fadd x' y);
  fopp_fzero : feqb (fopp fzero) fzero = true;
  feqb_eq : forall x y, feqb x y = true ->
                        x = y \/ (feqb x fzero = true /\ feqb y fzero = true);
}.

(** ** IEEE-754 binary64 *)

(** A double is an integer when its mantissa has no bit below the unit. *)
Definition is_integer64 (x : float) : bool :=
  match Prim2SF x with
  | S754_zero _ => true
  | S754_finite _ m e => (0 <=? e)%Z || (Z.pos m mod 2 ^ (- e) =? 0)%Z
  | S754_infinity _ | S754_nan => false
  end.

#[export] Instance binary64 : Num float := {|
  fzero := 0%float;
  fone := 1%float;
  finf := infinity;
  feps := 0x1.50ffd44f4a73dp-213%float;
  of_nat := fun n => PrimFloat.of_uint63 (Uint63.of_Z (Z.of_nat n));
  fadd := PrimFloat.add;
  fsub := PrimFloat.sub;
  fmul := PrimFloat.mul;
  fdiv := PrimFloat.div;
  fopp := PrimFloat.opp;
  fsqrt := PrimFloat.sqrt;
  feqb := PrimFloat.eqb;
  fltb := PrimFloat.ltb;
  fleb := PrimFloat.leb;
  fis_integer := is_integer64;
|}.

(** A stand-in for the C library on binary64, used to run examples: the
    polynomial 4.4.45 of Abramowitz and Stegun for arccos (NaN outside
    [-1, 1], as in C), and the power operator on the exponents 0 to 3. *)
Definition arccos64 (x : float) : float :=
  let p (y : float) : float :=
    (sqrt (1 - y) *
     (0x1.921b485ae2a4ap0 + y * (-0x1.b26908d815d63p-3
        + y * (0x1.302c4d65e4606p-4 + y * -0x1.32dc60be86b8fp-6))))%float in
  if (x <? 0)%float then (0x1.921fb54442d18p1 - p (- x))%float else p x.

Definition pow64 (x a : float) : float :=
  if (a =? 0)%float then 1%float
  else if (a =? 1)%float then x
  else if (a =? 2)%float then (x * x)%float
  else if (a =? 3)%float then (x * x * x)%float
  else nan.

#[export] Instance libm64 : Libm float := {| arccos := arccos64; fpow := pow64 |}.

(** ** Data model *)

(** A candidate: decision vector, objective vector, constraint violation and
    the attributes [_do] sets on it. *)
Module Individual.
Record t (R : Type) := mk {
  X : list R;
  F : list R;
  CV : R;
  theta : option R;
  apd : option R;
  niche : option nat;
  opt : option bool;
}.
Arguments mk {R}.
Arguments X {R}.
Arguments F {R}.
Arguments CV {R}.
Arguments theta {R}.
Arguments apd {R}.
Arguments niche {R}.
Arguments opt {R}.

(** [ind.set(theta=t, apd=a, niche=k, opt=False)] *)
Definition set_niche_attrs {R} (t a : R) (k : nat) (ind : Individual.t R) : Individual.t R :=
  mk (X ind) (F ind) (CV ind) (Some t) (Some a) (Some k) (Some false).

(** [ind.set("opt", b)] *)
Definition set_opt {R} (b : bool) (ind : Individual.t R) : Individual.t R :=
  mk (X ind) (F ind) (CV ind) (theta ind) (apd ind) (niche ind) (Some b).

(** A candidate as the evaluation leaves it, before any selection. *)
Definition evaluated {R} (x f : list R) (cv : R) : Individual.t R :=
  mk x f cv None None None None.

(** The candidate with the attributes of a selection taken off. *)
Definition reset {R} (ind : Individual.t R) : Individual.t R :=
  evaluated (X ind) (F ind) (CV ind).

#[export] Instance inhabited {R} `{Num R} : Inhabited (Individual.t R) :=
  populate (evaluated [] [] fzero).
End Individual.
Export (hints) Individual.

(** The class of [algorithm.termination] and its progress attribute. *)
Inductive TerminationType :=
| MaximumGenerationTermination
| MaximumFunctionCallTermination
| OtherTermination.

Record Termination (R : Type) := mkTermination {
  termination_type : TerminationType;
  perc : R;
}.
Arguments mkTermination {R}.
Arguments termination_type {R}.
Arguments perc {R}.

Record Problem := mkProblem { n_obj : nat }.

(** ** Survival selection *)

Section Geometry.
Context {R : Type} `{Num R} `{Libm R}.

(** [x ** y] on two Python floats (float_pow of CPython).  It has no float
    value in three cases, which are [None] here: zero to a finite negative
    power raises ZeroDivisionError; a result that overflows, infinite from
    finite operands, raises OverflowError; and a negative finite base under a
    finite exponent that is not an integer gives a complex number, with which
    the source goes on and the embedding does not.  Everywhere else the value
    is that of the C function. *)
Definition py_pow (x y : R) : option R :=
  if feqb x fzero && fltb y fzero && is_finite y then None
  else if fltb x fzero && is_finite x && is_finite y && negb (fis_integer y) then None
  else if is_finite x && is_finite y && is_inf (fpow x y) then None
  else Some (fpow x y).

(** [A[:, j]] for an array of shape (n, m): IndexError unless [j < m]. *)
Definition column (j m : nat) (A : list (list R)) : option (list R) :=
  if decide (j < m) then Some (map (fun a => a !!! j) A) else None.

(** The array [-1 * V @ V.T]: the product binds as [(-1 * V) @ V.T]. *)
Definition neg_similarity (V : list (list R)) : list (list R) :=
  matmul_T (map (map (fmul (fopp fone))) V) V.

(** The array [- np.sort(-1 * V @ V.T)]: every row in descending order. *)
Definition sorted_similarity (V : list (list R)) : list (list R) :=
  map (fun row => map fopp (np_sort row)) (neg_similarity V).

Definition calc_gamma (V : list (list R)) : option (list R) :=
  col ← column 1 (length V) (sorted_similarity V);
  let gamma := map arccos col in
  let gamma := map (fun g => np_maximum g feps) gamma in
  Some gamma.

Definition calc_V (ref_dirs : list (list R)) : list (list R) :=
  div_rows ref_dirs (norm_axis1 ref_dirs).



(** [A.shape[1]] of a 2-d array given as its rows. *)
Definition shape1 (A : list (list R)) : option nat :=
  match A with
  | [] => None
  | a :: _ => Some (length a)
  end.

(** [np.eye(n)] *)
Definition eye (n : nat) : list (list R) :=
  map (fun i => map (fun j => if decide (i = j) then fone else fzero) (seq 0 n)) (seq 0 n).

(** Modelled from the spec: [vectorized_cdist] of pymoo.util.misc is not part
    of the sources; a reference direction is extreme when it coincides with a
    coordinate axis, that is when its Euclidean distance to a row of the
    identity matrix is zero. *)
Definition vectorized_cdist (A B : list (list R)) : list (list R) :=
  map (fun a => map (fun b => norm (ew fsub a b)) B) A.

(** [np.where(np.any(D == 0, axis=1))[0]] *)
Definition where_any_zero (D : list (list R)) : list nat :=
  omap (fun '(i, d) => if existsb (fun x => feqb x fzero) d then Some i else None)
       (imap pair D).
End Geometry.

Module APDSurvival.
Record t (R : Type) := mk {
  filter_infeasible : bool;
  alpha : R;
  niches : option (list (list nat));
  V : list (list R);
  gamma : list R;
  ideal : option (list R);
  nadir : option (list R);
  ref_dirs : list (list R);
  extreme_ref_dirs : list nat;
}.
Arguments mk {R}.
Arguments filter_infeasible {R}.
Arguments alpha {R}.
Arguments niches {R}.
Arguments V {R}.
Arguments gamma {R}.
Arguments ideal {R}.
Arguments nadir {R}.
Arguments ref_dirs {R}.
Arguments extreme_ref_dirs {R}.

Section Methods.
Context {R : Type} `{Num R} `{Libm R}.

(** Attribute assignments [self.x = v]. *)
Definition set_geometry (self : t R) (V' : list (list R)) (gamma' : list R) : t R :=
  mk (filter_infeasible self) (alpha self) (niches self) V' gamma'
     (ideal self) (nadir self) (ref_dirs self) (extreme_ref_dirs self).
Definition set_ideal (self : t R) (v : option (list R)) : t R :=
  mk (filter_infeasible self) (alpha self) (niches self) (V self) (gamma self)
     v (nadir self) (ref_dirs self) (extreme_ref_dirs self).
Definition set_niches (self : t R) (v : option (list (list nat))) : t R :=
  mk (filter_infeasible self) (alpha self) v (V self) (gamma self)
     (ideal self) (nadir self) (ref_dirs self) (extreme_ref_dirs self).
Definition set_nadir (self : t R) (v : option (list R)) : t R :=
  mk (filter_infeasible self) (alpha self) (niches self) (V self) (gamma self)
     (ideal self) v (ref_dirs self) (extreme_ref_dirs self).

Definition __init__ (ref_dirs : list (list R)) (alpha : R) : option (t R) :=
  n_dim ← shape1 ref_dirs;
  let extreme := where_any_zero (vectorized_cdist ref_dirs (eye n_dim)) in
  let V := calc_V ref_dirs in
  gamma ← calc_gamma V;
  Some (mk true alpha None V gamma (Some (replicate n_dim finf)) None ref_dirs extreme).

Definition adapt (self : t R) : option (t R) :=
  match ideal self, nadir self with
  | Some ideal, Some nadir =>
      let V' := calc_V (mul_rowvec (calc_V (ref_dirs self)) (ew fsub nadir ideal)) in
      gamma' ← calc_gamma V';
      Some (set_geometry self V' gamma')
  | _, _ => Some self
  end.
(** [dist_to_ideal[dist_to_ideal < 1e-64] = 1e-64] *)
Definition floor_dist (d : R) : R := if fltb d feps then feps else d.

(** [for k, i in enumerate(niches): niches_to_ind[i].append(k)], with [k]
    the index of the head of [niches]. *)
Fixpoint assign_niches (k : nat) (niches : list nat) (niches_to_ind : list (list nat))
  : list (list nat) :=
  match niches with
  | [] => niches_to_ind
  | i :: niches' =>
      assign_niches (S k) niches' (alter (fun l => l ++ [k]) i niches_to_ind)
  end.

(** [M = problem.n_obj if problem.n_obj > 2.0 else 1.0] *)
Definition penalty_coefficient (problem : Problem) : R :=
  if decide (2 < n_obj problem) then of_nat (n_obj problem) else fone.

(** [pop[assigned_to_niche].set(theta=theta, apd=apd, niche=k, opt=False)]:
    the individual at [assigned_to_niche[p]] receives [theta[p]] and [apd[p]]. *)
Definition set_assigned (k : nat) (pop : list (Individual.t R))
    (assigned_to_niche : list nat) (theta apd : list R) : list (Individual.t R) :=
  foldl (fun pop '(i, (t, a)) => alter (Individual.set_niche_attrs t a k) i pop)
        pop (zip assigned_to_niche (zip theta apd)).

(** The body of [for k in range(len(self.V))]; the loop state is the
    population, whose individuals it updates, and the list [survivors].
    [progress] and [self.alpha] are Python floats, so [progress ** self.alpha]
    is [py_pow]; its product with [M] and with the array [theta / gamma] is
    float and numpy arithmetic, which does not raise. *)
Definition niche_step (self : t R) (problem : Problem) (progress : R)
    (dist_to_ideal : list R) (acute_angle : list (list R))
    (niches_to_ind : list (list nat))
    (st : list (Individual.t R) * list nat) (k : nat)
  : option (list (Individual.t R) * list nat) :=
  let '(pop, survivors) := st in
  let assigned_to_niche := niches_to_ind !!! k in
  if decide (0 < length assigned_to_niche) then
    let gamma := gamma self !!! k in
    let theta := map (fun i => (acute_angle !!! i) !!! k) assigned_to_niche in
    let M := penalty_coefficient problem in
    power ← py_pow progress (alpha self);
    let penalty := map (fun th => fmul (fmul M power) (fdiv th gamma)) theta in
    let apd := zip_with (fun d p => fmul d (fadd fone p))
                        (map (fun i => dist_to_ideal !!! i) assigned_to_niche) penalty in
    let survivor := assigned_to_niche !!! default 0 (argmin apd) in
    let pop := set_assigned k pop assigned_to_niche theta apd in
    let pop := alter (Individual.set_opt true) survivor pop in
    Some (pop, survivors ++ [survivor])
  else Some (pop, survivors).

(** The result is the updated engine, the population with the attributes
    set on its individuals, and the returned survivors [ret]; [None] is a
    raised exception (or the complex power of [py_pow]). *)
Definition _do (self : t R) (problem : Problem) (pop : list (Individual.t R))
    (termination : Termination R)
  : option (t R * list (Individual.t R) * list (Individual.t R)) :=
  let _ :=
    match termination_type termination with
    | MaximumGenerationTermination | MaximumFunctionCallTermination => tt
    | OtherTermination => tt          (* pass: the raise is commented out *)
    end in
  let progress := perc termination in
  let F := map Individual.F pop in
  Fmin ← min_axis0 F;
  ideal0 ← ideal self;
  let self := set_ideal self (Some (ew np_minimum Fmin ideal0)) in
  let ideal := ew np_minimum Fmin ideal0 in
  let F := sub_rowvec F ideal in
  let dist_to_ideal := map floor_dist (norm_axis1 F) in
  let F_prime := div_rows F dist_to_ideal in
  let acute_angle := map (map arccos) (matmul_T F_prime (V self)) in
  niches ← mapM argmin acute_angle;
  let niches_to_ind := assign_niches 0 niches (replicate (length (V self)) []) in
  '(pop, survivors) ←
    for_each (niche_step self problem progress dist_to_ideal acute_angle niches_to_ind)
             (pop, []) (seq 0 (length (V self)));
  let ret := map (fun i => pop !!! i) survivors in
  let self := set_niches self (Some niches_to_ind) in
  nadir ← max_axis0 (map Individual.F ret);
  let self := set_nadir self (Some nadir) in
  Some (self, pop, ret).
(** *** The intermediate arrays of [_do], by the line that computes them *)

(** [self.ideal = np.minimum(F.min(axis=0), self.ideal)] *)
Definition new_ideal (ideal0 : list R) (pop : list (Individual.t R)) : option (list R) :=
  Fmin ← min_axis0 (map Individual.F pop);
  Some (ew np_minimum Fmin ideal0).

(** [dist_to_ideal], after the flooring at 1e-64 *)
Definition dist_to_ideal_of (ideal : list R) (pop : list (Individual.t R)) : list R :=
  map floor_dist (norm_axis1 (sub_rowvec (map Individual.F pop) ideal)).

(** [F_prime @ self.V.T], the array [np.arccos] is applied to *)
Definition arccos_argument (V : list (list R)) (ideal : list R)
    (pop : list (Individual.t R)) : list (list R) :=
  matmul_T (div_rows (sub_rowvec (map Individual.F pop) ideal) (dist_to_ideal_of ideal pop)) V.

Definition acute_angle_of (V : list (list R)) (ideal : list R)
    (pop : list (Individual.t R)) : list (list R) :=
  map (map arccos) (arccos_argument V ideal pop).

(** [niches = acute_angle.argmin(axis=1)] *)
Definition niches_of (V : list (list R)) (ideal : list R)
    (pop : list (Individual.t R)) : option (list nat) :=
  mapM argmin (acute_angle_of V ideal pop).

(** The candidates assigned to direction [k], in population order; [k0] is
    the index of the head of [niches]. *)
Fixpoint candidates_of (k0 : nat) (niches : list nat) (k : nat) : list nat :=
  match niches with
  | [] => []
  | i :: niches' =>
      (if decide (i = k) then [k0] else []) ++ candidates_of (S k0) niches' k
  end.

(** The angle-penalized distance of candidate [i] in niche [k]:
    [dist_to_ideal * (1 + M * progress ** alpha * (theta / gamma))]. *)
Definition angle_penalized_distance (self : t R) (problem : Problem) (progress : R)
    (dist_to_ideal : list R) (acute_angle : list (list R)) (k i : nat) : R :=
  let theta := (acute_angle !!! i) !!! k in
  let gamma := gamma self !!! k in
  let M := penalty_coefficient problem in
  fmul (dist_to_ideal !!! i)
       (fadd fone (fmul (fmul M (fpow progress (alpha self))) (fdiv theta gamma))).

(** The survivor of a niche: the assigned candidate at the first position
    of a least angle-penalized distance. *)
Definition niche_survivor (self : t R) (problem : Problem) (progress : R)
    (dist_to_ideal : list R) (acute_angle : list (list R))
    (assigned_to_niche : list nat) (k : nat) : nat :=
  assigned_to_niche !!!
    default 0 (argmin (map (angle_penalized_distance self problem progress
                              dist_to_ideal acute_angle k) assigned_to_niche)).

(** The two components of the loop body [niche_step]: the population
    after the attributes of niche [k] are set, and the survivor appended
    for [k], if any. *)
Definition mark_assigned (self : t R) (problem : Problem) (progress : R)
    (dist_to_ideal : list R) (acute_angle : list (list R)) (k : nat)
    (pop : list (Individual.t R)) (assigned_to_niche : list nat)
  : list (Individual.t R) :=
  foldl (fun pop i =>
           alter (Individual.set_niche_attrs
                    ((acute_angle !!! i) !!! k)
                    (angle_penalized_distance self problem progress
                       dist_to_ideal acute_angle k i) k) i pop)
        pop assigned_to_niche.

Definition niche_population (self : t R) (problem : Problem) (progress : R)
    (dist_to_ideal : list R) (acute_angle : list (list R))
    (niches_to_ind : list (list nat)) (pop : list (Individual.t R)) (k : nat)
  : list (Individual.t R) :=
  let assigned := niches_to_ind !!! k in
  if decide (0 < length assigned) then
    alter (Individual.set_opt true)
          (niche_survivor self problem progress dist_to_ideal acute_angle assigned k)
          (mark_assigned self problem progress dist_to_ideal acute_angle k pop assigned)
  else pop.

Definition niche_winner (self : t R) (problem : Problem) (progress : R)
    (dist_to_ideal : list R) (acute_angle : list (list R))
    (niches_to_ind : list (list nat)) (k : nat) : option nat :=
  let assigned := niches_to_ind !!! k in
  if decide (0 < length assigned) then
    Some (niche_survivor self problem progress dist_to_ideal acute_angle assigned k)
  else None.

(** What [_do] leaves on candidate [i] of niche [k]: angle, distance and
    niche index, and the flag that tells the survivor of the niche. *)
Definition with_selection_attrs (self : t R) (problem : Problem) (progress : R)
    (dist_to_ideal : list R) (acute_angle : list (list R))
    (niches_to_ind : list (list nat)) (k i : nat) (ind : Individual.t R)
  : Individual.t R :=
  let tagged :=
    Individual.set_niche_attrs
      ((acute_angle !!! i) !!! k)
      (angle_penalized_distance self problem progress dist_to_ideal acute_angle k i)
      k ind in
  if decide (i = niche_survivor self problem progress dist_to_ideal acute_angle
                   (niches_to_ind !!! k) k)
  then Individual.set_opt true tagged else tagged.

(** The arrays of the engine and of the population agree in their
    dimensions: [m] objectives everywhere, one neighbor angle per
    direction.  numpy raises on a mismatch; the embedding covers the calls
    that satisfy this. *)
Definition well_shaped (self : t R) (pop : list (Individual.t R)) : Prop :=
  exists m ideal0,
    ideal self = Some ideal0 /\ length ideal0 = m /\
    Forall (fun c => length (Individual.F c) = m) pop /\
    Forall (fun v => length v = m) (V self) /\
    length (gamma self) = length (V self).

(** A run of selection calls on one engine, each with its population and
    the termination of the driving algorithm. *)
Fixpoint selects (self : t R) (problem : Problem)
    (calls : list (list (Individual.t R) * Termination R)) : option (t R) :=
  match calls with
  | [] => Some self
  | (pop, termination) :: calls' =>
      '(self, _, _) ← _do self problem pop termination;
      selects self problem calls'
  end.






(** *** The angle as the specification words it *)

(** [np.clip(x, lo, hi)] *)
Definition clip (lo hi x : R) : R := np_minimum (np_maximum x lo) hi.

(** The angle with the argument of arccos clamped to [-1, 1]. *)
Definition acute_angle_clamped (V : list (list R)) (ideal : list R)
    (pop : list (Individual.t R)) : list (list R) :=
  map (map (fun c => arccos (clip (fopp fone) fone c))) (arccos_argument V ideal pop).
End Methods.
End APDSurvival.

(** ** The optimizer shell *)

Module RVEA.
Record t (R : Type) := mk {
  ref_dirs : option (list (list R));
  alpha : R;
  adapt_freq : R;
  pop_size : option nat;
  n_offsprings : option nat;
  survival : option (APDSurvival.t R);
  n_adapt : option nat;               (* set by [_setup] *)
  termination : Termination R;
  pop : list (Individual.t R);
  opt : option (list (Individual.t R));
}.
Arguments mk {R}.
Arguments ref_dirs {R}.
Arguments alpha {R}.
Arguments adapt_freq {R}.
Arguments pop_size {R}.
Arguments n_offsprings {R}.
Arguments survival {R}.
Arguments n_adapt {R}.
Arguments termination {R}.
Arguments pop {R}.
Arguments opt {R}.

Section Methods.
Context {R : Type} `{Num R} `{Libm R}.

(** Code of the repository that is not part of the sources, taken as
    parameters: the reference directions built for an objective count
    (pymoo.util.reference_direction), the generational step of the base
    class (GeneticAlgorithm._advance, which produces the next population
    by mating and survival selection) and the feasibility of a candidate. *)
Variable default_ref_dirs : nat -> list (list R).
Variable super_advance : t R -> option (t R).
Variable feasible : Individual.t R -> bool.

(** Modelled from the spec: [has_feasible] of pymoo.util.misc is not part
    of the sources; it tells whether a feasible candidate exists in the
    population. *)
Definition has_feasible (pop : list (Individual.t R)) : bool := existsb feasible pop.

(** The part of [__init__] before the call of the base class.  The base
    class (GeneticAlgorithm, not part of the sources) stores the arguments it
    is passed; [pop_size], [n_offsprings] and [survival] hold them as they are
    passed, and what the base class does to a missing [n_offsprings] is not
    modelled. *)
Definition __init__ (ref_dirs : option (list (list R))) (alpha adapt_freq : R)
    (pop_size n_offsprings : option nat) (survival : option (APDSurvival.t R))
    (termination : Termination R) : t R :=
  let pop_size :=
    match ref_dirs, pop_size with
    | Some rd, None => Some (length rd)
    | _, _ => pop_size
    end in
  mk ref_dirs alpha adapt_freq pop_size n_offsprings survival None termination [] None.

Definition _setup (self : t R) (problem : Problem) : option (t R) :=
  let '(ref_dirs, pop_size, n_offsprings) :=
    match ref_dirs self with
    | None =>
        let rd := default_ref_dirs (n_obj problem) in
        (rd, Some (length rd), Some (length rd))
    | Some rd => (rd, pop_size self, n_offsprings self)
    end in
  survival ←
    match survival self with
    | None => APDSurvival.__init__ ref_dirs (alpha self)
    | Some s => Some s
    end;
  Some (mk (Some ref_dirs) (alpha self) (adapt_freq self) pop_size n_offsprings
           (Some survival) (Some 1) (termination self) (pop self) (opt self)).

(** [self.termination.perc] and [self.adapt_freq] are Python floats: their
    quotient is [py_div]. *)
Definition _advance (self : t R) : option (t R) :=
  self ← super_advance self;
  quotient ← py_div (perc (termination self)) (adapt_freq self);
  n_adapt ← n_adapt self;
  if fgeb quotient (of_nat n_adapt) then
    survival ← survival self;
    survival ← APDSurvival.adapt survival;
    Some (mk (ref_dirs self) (alpha self) (adapt_freq self) (pop_size self)
             (n_offsprings self) (Some survival) (Some (n_adapt + 1))
             (termination self) (pop self) (opt self))
  else Some self.

(** [m] advance calls in a row. *)
Fixpoint advances (m : nat) (self : t R) : option (t R) :=
  match m with
  | 0 => Some self
  | S m' => self ← _advance self; advances m' self
  end.

Definition set_opt (self : t R) (o : list (Individual.t R)) : t R :=
  mk (ref_dirs self) (alpha self) (adapt_freq self) (pop_size self)
     (n_offsprings self) (survival self) (n_adapt self)
     (termination self) (pop self) (Some o).

Definition _set_optimum (self : t R) : option (t R) :=
  if negb (has_feasible (pop self)) then
    i ← argmin (map Individual.CV (pop self));
    Some (set_opt self [pop self !!! i])
  else Some (set_opt self (pop self)).
End Methods.
End RVEA.

(** ** A small run in binary64

    Two objectives, three reference directions and two generations; the
    second population leaves the middle direction without a candidate. *)
Module Demo.
Import APDSurvival.

Definition ref_dirs : list (list float) := [[0; 1]; [0.5; 0.5]; [1; 0]]%float.
Definition problem : Problem := mkProblem 2.

Definition candidate (f1 f2 : float) : Individual.t float :=
  Individual.evaluated [] [f1; f2] 0%float.

Definition pop1 : list (Individual.t float) :=
  [candidate 0.25 1; candidate 0.5 0.75; candidate 0.75 0.5; candidate 0.375 0.875]%float.
Definition pop2 : list (Individual.t float) :=
  [candidate 0.25 0.5; candidate 0.5 0.25; candidate 0.125 0.625]%float.

Definition termination1 : Termination float :=
  mkTermination MaximumGenerationTermination 0.5%float.
Definition termination2 : Termination float :=
  mkTermination OtherTermination 0.75%float.

(** The engine as [__init__] builds it. *)
Definition engine : t float :=
  Eval vm_compute in
    default (mk true 0%float None [] [] None None [] []) (__init__ ref_dirs 2%float).

(** The engine after the first generation and one adaptation. *)
Definition engine1 : t float :=
  Eval vm_compute in
    default engine ('(s, _, _) ← _do engine problem pop1 termination1; adapt s).

(** The optimizer after a first generation, half of the budget spent at once;
    the base-class step is left out (it is the identity here). *)
Definition engine_selected : t float :=
  Eval vm_compute in
    default engine ('(s, _, _) ← _do engine problem pop1 termination1; Some s).

Definition algorithm : RVEA.t float :=
  RVEA.mk (Some ref_dirs) 2%float 0x1.999999999999ap-4%float (Some 3) (Some 3)
          (Some engine_selected) (Some 1) termination1 pop1 None.

(** The optimizer after one and after two advance calls at that progress. *)
Definition algorithm1 : RVEA.t float :=
  RVEA.mk (Some ref_dirs) 2%float 0x1.999999999999ap-4%float (Some 3) (Some 3)
          (Some engine1) (Some 2) termination1 pop1 None.
Definition algorithm2 : RVEA.t float :=
  RVEA.mk (Some ref_dirs) 2%float 0x1.999999999999ap-4%float (Some 3) (Some 3)
          (Some engine1) (Some 3) termination1 pop1 None.

(** The same optimizer with an adaptation frequency of zero. *)
Definition algorithm_never : RVEA.t float :=
  RVEA.mk (Some ref_dirs) 2%float 0%float (Some 3) (Some 3)
          (Some engine_selected) (Some 1) termination1 pop1 None.

(** A population without feasible candidate: the constraint violations. *)
Definition infeasible_pop : list (Individual.t float) :=
  [Individual.evaluated [] [0.25; 1] 0.5; Individual.evaluated [] [0.5; 0.75] 0.125;
   Individual.evaluated [] [0.75; 0.5] 2; Individual.evaluated [] [0.375; 0.875] 0.125]%float.

Definition feasible (c : Individual.t float) : bool := (Individual.CV c <=? 0)%float.

Definition algorithm_infeasible : RVEA.t float :=
  RVEA.mk (Some ref_dirs) 2%float 0x1.999999999999ap-4%float (Some 3) (Some 3)
          (Some engine_selected) (Some 1) termination1 infeasible_pop None.

(** A candidate that lies exactly on a reference direction: directions
    (1, 5) and (5, 1), objective vectors (1, 5), (0, 6), (6, 0). *)
Definition skew_ref_dirs : list (list float) := [[1; 5]; [5; 1]]%float.
Definition skew_pop : list (Individual.t float) :=
  [candidate 1 5; candidate 0 6; candidate 6 0]%float.
Definition skew_engine : t float :=
  Eval vm_compute in
    default (mk true 0%float None [] [] None None [] []) (__init__ skew_ref_dirs 2%float).




(** What the first selection call returns: the engine, the population with
    its attributes and the survivors. *)
Definition outcome1 : t float * list (Individual.t float) * list (Individual.t float) :=
  Eval vm_compute in
    default (engine, [], []) (_do engine problem pop1 termination1).


(** An optimizer built without reference directions, before and after the
    setup; the default directions of the problem are those above. *)
Definition default_ref_dirs (n_obj : nat) : list (list float) := ref_dirs.
Definition unset : RVEA.t float :=
  RVEA.__init__ None 2%float 0x1.999999999999ap-4%float None None None termination1.
Definition algorithm0 : RVEA.t float :=
  Eval vm_compute in default unset (RVEA._setup default_ref_dirs unset problem).
End Demo.

(** * Properties *)

(** ** The order of binary64 *)

Section SpecOrder.
Local Open Scope Z_scope.

Local Ltac by_compare ex ey mx my :=
  destruct (Z.compare_spec ex ey), (Z.compare_spec ey ex); subst;
  try lia; try reflexivity; auto;
  change (Pos.compare_cont Eq mx my) with (Pos.compare mx my);
  change (Pos.compare_cont Eq my mx) with (Pos.compare my mx);
  destruct (Pos.compare_spec mx my), (Pos.compare_spec my mx); subst; simpl;
  try lia; try reflexivity; auto.

Local Ltac by_compare_hyps :=
  repeat match goal with
  | H : context [ Pos.compare_cont Eq ?a ?b ] |- _ =>
      change (Pos.compare_cont Eq a b) with (Pos.compare a b) in H
  | |- context [ Pos.compare_cont Eq ?a ?b ] =>
      change (Pos.compare_cont Eq a b) with (Pos.compare a b)
  end;
  repeat match goal with
  | H : context [ Z.compare ?a ?b ] |- _ =>
      destruct (Z.compare_spec a b); simpl in H; try discriminate H
  | H : context [ Pos.compare ?a ?b ] |- _ =>
      destruct (Pos.compare_spec a b); simpl in H; try discriminate H
  | |- context [ Z.compare ?a ?b ] => destruct (Z.compare_spec a b); simpl
  | |- context [ Pos.compare ?a ?b ] => destruct (Pos.compare_spec a b); simpl
  end; subst; try reflexivity; try discriminate; try lia.

Lemma SFleb_trans x y z : SFleb x y = true -> SFleb y z = true -> SFleb x z = true.
Proof.
  unfold SFleb, SFcompare.
  destruct x as [[]|[]| |[] mx ex], y as [[]|[]| |[] my ey], z as [[]|[]| |[] mz ez];
    simpl; intros Hxy Hyz; try discriminate; try reflexivity; by_compare_hyps.
Qed.

Lemma SFleb_total x y :
  SFeqb x x = true -> SFeqb y y = true -> SFleb x y = true \/ SFleb y x = true.
Proof.
  unfold SFleb, SFeqb, SFcompare.
  destruct x as [[]|[]| |[] mx ex], y as [[]|[]| |[] my ey];
    simpl; intros Hx Hy; try discriminate; auto; clear Hx Hy; by_compare ex ey mx my.
Qed.

Lemma SFeqb_SFleb x y : SFeqb x y = SFleb x y && SFleb y x.
Proof.
  unfold SFleb, SFeqb, SFcompare.
  destruct x as [[]|[]| |[] mx ex], y as [[]|[]| |[] my ey]; simpl; try reflexivity;
    by_compare ex ey mx my.
Qed.

Lemma SFltb_SFleb x y : SFltb x y = SFleb x y && negb (SFleb y x).
Proof.
  unfold SFleb, SFltb, SFcompare.
  destruct x as [[]|[]| |[] mx ex], y as [[]|[]| |[] my ey]; simpl; try reflexivity;
    by_compare ex ey mx my.
Qed.

Lemma SFleb_not_nan x y : SFleb x y = true -> SFeqb x x = true /\ SFeqb y y = true.
Proof.
  unfold SFleb, SFeqb, SFcompare.
  destruct x as [[]|[]| |[] mx ex], y as [[]|[]| |[] my ey]; simpl;
    try discriminate; intros _; rewrite ?Z.compare_refl;
    change (Pos.compare_cont Eq ?a ?a) with (Pos.compare a a);
    rewrite ?Pos.compare_refl; simpl; auto.
Qed.

Lemma SFleb_SFopp x y : SFleb (SFopp x) (SFopp y) = SFleb y x.
Proof.
  unfold SFleb, SFopp, SFcompare.
  destruct x as [[]|[]| |[] mx ex], y as [[]|[]| |[] my ey]; simpl; try reflexivity;
    by_compare ex ey mx my.
Qed.

Lemma SFleb_infinity x : SFeqb x x = true -> SFleb x (S754_infinity false) = true.
Proof. destruct x as [[]|[]| |[] mx ex]; simpl; try discriminate; reflexivity. Qed.
End SpecOrder.

#[export] Instance binary64_order : NumOrder float.
Proof.
  constructor; simpl; intros *.
  - rewrite FloatAxioms.eqb_spec, !leb_spec. apply SFeqb_SFleb.
  - rewrite ltb_spec, !leb_spec. apply SFltb_SFleb.
  - rewrite !leb_spec. apply SFleb_trans.
  - rewrite !FloatAxioms.eqb_spec, !leb_spec. apply SFleb_total.
  - rewrite !FloatAxioms.eqb_spec, !leb_spec. apply SFleb_not_nan.
  - rewrite !leb_spec, !opp_spec. apply SFleb_SFopp.
  - rewrite FloatAxioms.eqb_spec, leb_spec. apply SFleb_infinity.
  - reflexivity.
Qed.

(** ** The sign symmetry of binary64 *)

Section SpecSign.
#[local] Open Scope Z_scope.

(** Numerical equality of two floats: [==], or both NaN. *)
Definition SFsame (x y : spec_float) : Prop :=
  SFeqb x y = true \/ (x = S754_nan /\ y = S754_nan).

Lemma SFsame_refl x : SFsame x x.
Proof.
  destruct x as [s|s| |s m e]; [left|left|right|left]; try done.
  - by destruct s.
  - unfold SFeqb. simpl. by destruct s; rewrite Z.compare_refl, Pos.compare_cont_refl.
Qed.

Lemma SFeqb_eq x y :
  SFeqb x y = true ->
  x = y \/ exists a b, x = S754_zero a /\ y = S754_zero b.
Proof.
  unfold SFeqb.
  destruct x as [sx|sx| |sx mx ex], y as [sy|sy| |sy my ey]; simpl; try discriminate;
    try (by destruct sx); try (by destruct sy).
  - intros _. right. eauto.
  - destruct sx, sy; try discriminate; intros _; by left.
  - destruct sx, sy; try discriminate;
      destruct (Z.compare ex ey) eqn:He; try discriminate;
      apply Z.compare_eq in He as ->;
      destruct (Pos.compare_cont Eq mx my) eqn:Hm; try discriminate;
      apply Pos.compare_eq in Hm as ->; intros _; by left.
Qed.

Lemma SFopp_involutive x : SFopp (SFopp x) = x.
Proof. destruct x as [[]|[]| |[] m e]; reflexivity. Qed.

Lemma binary_round_aux_opp s m e l :
  binary_round_aux prec emax (negb s) m e l = SFopp (binary_round_aux prec emax s m e l).
Proof.
  unfold binary_round_aux.
  destruct (shr_fexp prec emax m e l) as [mrs' e'].
  destruct (shr_fexp prec emax _ e' loc_Exact) as [mrs'' e''].
  destruct (shr_m mrs''); try reflexivity.
  destruct (e'' <=? emax - prec); reflexivity.
Qed.

Lemma binary_round_opp s m e :
  binary_round prec emax (negb s) m e = SFopp (binary_round prec emax s m e).
Proof.
  unfold binary_round. destruct (shl_align m e _) as [mz ez].
  apply binary_round_aux_opp.
Qed.

Lemma SFmul_opp_l x y : SF64mul (SFopp x) y = SFopp (SF64mul x y).
Proof.
  unfold SF64mul.
  destruct x as [sx|sx| |sx mx ex], y as [sy|sy| |sy my ey]; simpl; try reflexivity;
    try (by destruct sx, sy).
  rewrite <- binary_round_aux_opp. by destruct sx, sy.
Qed.

Lemma SFadd_opp x y : SFsame (SF64add (SFopp x) (SFopp y)) (SFopp (SF64add x y)).
Proof.
  unfold SF64add.
  destruct x as [sx|sx| |sx mx ex], y as [sy|sy| |sy my ey]; simpl;
    try (by right); try apply SFsame_refl;
    try (destruct sx, sy; simpl; first [by right | by left | apply SFsame_refl]).
  set (a := Z.pos (fst (shl_align mx ex (Z.min ex ey)))).
  set (b := Z.pos (fst (shl_align my ey (Z.min ex ey)))).
  replace (cond_Zopp (negb sx) a + cond_Zopp (negb sy) b)
    with (- (cond_Zopp sx a + cond_Zopp sy b)) by (destruct sx, sy; simpl; lia).
  unfold binary_normalize.
  destruct (cond_Zopp sx a + cond_Zopp sy b) as [|p|p]; simpl.
  - by left.
  - change true with (negb false). rewrite binary_round_opp. apply SFsame_refl.
  - change true with (negb false). rewrite binary_round_opp, SFopp_involutive.
    apply SFsame_refl.
Qed.

(** Fifty-two halvings of a mantissa that ends in fifty-two zero bits are
    exact. *)
Lemma shr_52 (m : positive) :
  SpecFloat.iter_pos shr_1 52%positive
    {| shr_m := Z.pos (4503599627370496 * m); shr_r := false; shr_s := false |} =
    {| shr_m := Z.pos m; shr_r := false; shr_s := false |}.
Proof. reflexivity. Qed.

Lemma digits2_pos_52 (m : positive) :
  Z.pos (digits2_pos (4503599627370496 * m)) = Z.pos (digits2_pos m) + 52.
Proof.
  change (4503599627370496 * m)%positive with (Nat.iter 52 xO m).
  cbn [Nat.iter digits2_pos nat_rect]. rewrite !Pos2Z.inj_succ. lia.
Qed.

(** The product of a float by one is rounded to the float itself. *)
Lemma binary_round_aux_one s m e :
  bounded prec emax m e = true ->
  binary_round_aux prec emax s (Z.pos (4503599627370496 * m)) (-52 + e) loc_Exact =
  S754_finite s m e.
Proof.
  unfold bounded, canonical_mantissa. intros [Hcan Hmax]%andb_prop.
  apply Z.eqb_eq in Hcan. apply Z.leb_le in Hmax.
  unfold binary_round_aux, shr_fexp.
  unfold Zdigits2 at 1. rewrite digits2_pos_52.
  replace (Z.pos (digits2_pos m) + 52 + (-52 + e)) with (Z.pos (digits2_pos m) + e) by lia.
  rewrite Hcan. replace (e - (-52 + e)) with 52 by lia.
  cbn [shr shr_record_of_loc]. rewrite shr_52.
  cbn [shr_m loc_of_shr_record round_nearest_even Zdigits2].
  replace (-52 + e + 52) with e by lia.
  rewrite Hcan, Z.sub_diag. cbn [shr shr_record_of_loc shr_m].
  apply Z.leb_le in Hmax. by rewrite Hmax.
Qed.

Lemma SFadd_same_l x x' y : SFsame x x' -> SFsame (SF64add x y) (SF64add x' y).
Proof.
  intros [Heq|[-> ->]]; [|apply SFsame_refl].
  apply SFeqb_eq in Heq as [->|(a & b & -> & ->)]; [apply SFsame_refl|].
  destruct y as [sy|sy| |sy my ey]; simpl; try apply SFsame_refl.
  destruct a, b, sy; by left.
Qed.

Lemma SFeqb_nan x : SFeqb x x = false <-> x = S754_nan.
Proof.
  split; [|by intros ->].
  destruct (SFsame_refl x) as [Heq|[-> _]]; [congruence|done].
Qed.

Lemma same_spec (x y : float) : same x y <-> SFsame (Prim2SF x) (Prim2SF y).
Proof.
  unfold same, SFsame, is_nan. simpl. rewrite !FloatAxioms.eqb_spec, !negb_true_iff, !SFeqb_nan.
  done.
Qed.
End SpecSign.

#[export] Instance binary64_sign : NumSign float.
Proof.
  constructor; simpl.
  - intros x. apply Prim2SF_inj. rewrite !opp_spec. apply SFopp_involutive.
  - intros x. apply Prim2SF_inj. rewrite mul_spec, !opp_spec.
    change (Prim2SF 1) with (S754_finite false 4503599627370496 (-52)).
    pose proof (Prim2SF_valid x) as Hvalid.
    destruct (Prim2SF x) as [s|s| |s m e]; simpl; try reflexivity.
    change (Z.pos (4503599627370496 * m)) with (Z.pos (4503599627370496 * m)).
    by apply binary_round_aux_one.
  - intros x y. apply Prim2SF_inj. rewrite !mul_spec, !opp_spec, mul_spec.
    apply SFmul_opp_l.
  - intros x y. apply same_spec. rewrite !add_spec, !opp_spec, add_spec.
    apply SFadd_opp.
  - intros x x' y Hx. apply same_spec. rewrite !add_spec.
    apply SFadd_same_l. by apply same_spec.
  - reflexivity.
  - intros x y. rewrite !FloatAxioms.eqb_spec.
    intros [Heq|(a & b & Hx & Hy)]%SFeqb_eq.
    + left. by apply Prim2SF_inj.
    + right. rewrite Hx, Hy. by destruct a, b.
Qed.

(** ** Comparison, minimum and argmin *)

Section OrderFacts.
Context {R : Type} `{NumOrder R}.

Lemma is_nan_false (x : R) : is_nan x = false <-> feqb x x = true.
Proof. unfold is_nan. destruct (feqb x x); simpl; intuition congruence. Qed.

Lemma fleb_refl (x : R) : feqb x x = true -> fleb x x = true.
Proof. rewrite feqb_fleb. intros Hx. apply andb_prop in Hx. tauto. Qed.

Lemma fleb_false_flip (x y : R) :
  feqb x x = true -> feqb y y = true -> fleb x y = false -> fleb y x = true.
Proof. intros Hx Hy Hxy. destruct (fleb_total x y Hx Hy); congruence. Qed.

Lemma np_minimum_cases (a b : R) : np_minimum a b = a \/ np_minimum a b = b.
Proof. unfold np_minimum. destruct (fleb a b || is_nan a); auto. Qed.

Lemma np_minimum_not_nan (a b : R) :
  feqb a a = true -> feqb b b = true -> feqb (np_minimum a b) (np_minimum a b) = true.
Proof. intros. destruct (np_minimum_cases a b) as [-> | ->]; assumption. Qed.

Lemma np_minimum_le_l (a b : R) :
  feqb a a = true -> feqb b b = true -> fleb (np_minimum a b) a = true.
Proof.
  intros Ha Hb. unfold np_minimum.
  destruct (fleb a b) eqn:Hab; simpl.
  - by apply fleb_refl.
  - rewrite (proj2 (is_nan_false a) Ha). by apply fleb_false_flip.
Qed.

Lemma np_minimum_le_r (a b : R) :
  feqb a a = true -> feqb b b = true -> fleb (np_minimum a b) b = true.
Proof.
  intros Ha Hb. unfold np_minimum.
  destruct (fleb a b) eqn:Hab; simpl; [done|].
  rewrite (proj2 (is_nan_false a) Ha). by apply fleb_refl.
Qed.

Lemma np_maximum_ge_r (a b : R) :
  feqb a a = true -> feqb b b = true -> fleb b (np_maximum a b) = true.
Proof.
  intros Ha Hb. unfold np_maximum, fgeb.
  destruct (fleb b a) eqn:Hba; simpl; [done|].
  rewrite (proj2 (is_nan_false a) Ha). by apply fleb_refl.
Qed.

(** The scan returns an index of the array, whatever the values are. *)
Lemma argmin_scan_bound (l : list R) mp ind i :
  ind < i -> argmin_scan mp ind i l < i + length l.
Proof.
  revert mp ind i. induction l as [|y l IH]; intros mp ind i Hi; simpl; [lia|].
  destruct (is_nan mp); [lia|].
  destruct (negb (fgeb y mp)).
  - specialize (IH y i (S i)). lia.
  - specialize (IH mp ind (S i)). lia.
Qed.

Lemma argmin_bound (l : list R) i : argmin l = Some i -> i < length l.
Proof.
  destruct l as [|x l]; simpl; [done|]. intros [= <-].
  pose proof (argmin_scan_bound l x 0 1). lia.
Qed.

Lemma argmin_is_Some (l : list R) : l <> [] -> is_Some (argmin l).
Proof. destruct l; [done|]. simpl. eauto. Qed.

Lemma argmin_scan_first_min (l pre : list R) mp ind :
  Forall (fun x => feqb x x = true) (pre ++ l) ->
  pre !! ind = Some mp ->
  (forall j x, pre !! j = Some x -> fleb mp x = true /\ (j < ind -> fleb x mp = false)) ->
  first_min (pre ++ l) (argmin_scan mp ind (length pre) l).
Proof.
  revert pre mp ind. induction l as [|y l IH]; intros pre mp ind Hnan Hmp Hpre; simpl.
  - rewrite app_nil_r. exists mp. split; [done|]. apply Hpre.
  - assert (Hmp_ok : feqb mp mp = true).
    { rewrite Forall_forall in Hnan. apply Hnan, elem_of_app. left.
      by eapply list_elem_of_lookup_2. }
    assert (Hy_ok : feqb y y = true).
    { rewrite Forall_forall in Hnan. apply Hnan, elem_of_app. right. left. }
    rewrite (proj2 (is_nan_false mp) Hmp_ok). unfold fgeb.
    replace (pre ++ y :: l) with ((pre ++ [y]) ++ l) in * by by rewrite <- app_assoc.
    replace (S (length pre)) with (length (pre ++ [y])) by (rewrite length_app; simpl; lia).
    destruct (fleb mp y) eqn:Hle; simpl.
    + apply IH; [done| |].
      * by apply lookup_app_l_Some.
      * intros j x Hj. apply lookup_app_Some in Hj as [Hj | [Hge Hj]]; [by apply Hpre|].
        apply list_lookup_singleton_Some in Hj as [_ <-]. split; [done|].
        apply lookup_lt_Some in Hmp. lia.
    + apply IH; [done| |].
      * rewrite lookup_app_r by lia. by rewrite Nat.sub_diag.
      * assert (Hym : fleb y mp = true) by by apply fleb_false_flip.
        intros j x Hj. apply lookup_app_Some in Hj as [Hj | [Hge Hj]].
        -- destruct (Hpre j x Hj) as [Hmx _]. split; [by eapply fleb_trans|].
           intros _. destruct (fleb x y) eqn:Hxy; [|done].
           rewrite (fleb_trans mp x y Hmx Hxy) in Hle. done.
        -- apply list_lookup_singleton_Some in Hj as [_ <-].
           split; [by apply fleb_refl|lia].
Qed.

(** On an array without NaN, [argmin] is the first index of a minimum. *)
Lemma argmin_first_min (l : list R) i :
  Forall (fun x => feqb x x = true) l -> argmin l = Some i -> first_min l i.
Proof.
  destruct l as [|x l]; simpl; [done|]. intros Hnan [= <-].
  apply (argmin_scan_first_min l [x] x 0); [done|done|].
  intros j y Hj. apply list_lookup_singleton_Some in Hj as [-> <-].
  split; [|lia]. apply fleb_refl. by inversion Hnan.
Qed.




End OrderFacts.

(** ** The selection operation, phase by phase *)

Section SelectionFacts.
Context {R : Type} `{Num R} `{Libm R}.
Import APDSurvival.

(** [_do] in terms of its named intermediate arrays. *)
Lemma _do_phases (self : t R) problem pop termination :
  _do self problem pop termination =
    (ideal0 ← ideal self;
     ideal' ← new_ideal ideal0 pop;
     let dist := dist_to_ideal_of ideal' pop in
     let angle := acute_angle_of (V self) ideal' pop in
     niches ← niches_of (V self) ideal' pop;
     let niches_to_ind := assign_niches 0 niches (replicate (length (V self)) []) in
     st ← for_each (niche_step (set_ideal self (Some ideal')) problem (perc termination)
                               dist angle niches_to_ind)
                   (pop, []) (seq 0 (length (V self)));
     let ret := map (fun i => st.1 !!! i) st.2 in
     nadir' ← max_axis0 (map Individual.F ret);
     Some (set_nadir (set_niches (set_ideal self (Some ideal')) (Some niches_to_ind))
                     (Some nadir'), st.1, ret)).
Proof.
  unfold _do, new_ideal, niches_of, acute_angle_of, arccos_argument, dist_to_ideal_of.
  destruct (ideal self) as [ideal0|]; simpl.
  - destruct (min_axis0 _) as [Fmin|]; simpl; [|done].
    destruct (mapM argmin _) as [niches|]; simpl; [|done].
    destruct (for_each _ _ _) as [[pop' survivors]|]; done.
  - destruct (min_axis0 _); done.
Qed.

(** *** Niche assignment *)

Lemma length_assign_niches niches k0 (acc : list (list nat)) :
  length (assign_niches k0 niches acc) = length acc.
Proof.
  revert k0 acc. induction niches as [|i niches IH]; intros k0 acc; simpl; [done|].
  by rewrite IH, length_alter.
Qed.

Lemma assign_niches_lookup niches k0 (acc : list (list nat)) k l :
  acc !! k = Some l ->
  assign_niches k0 niches acc !! k = Some (l ++ candidates_of k0 niches k).
Proof.
  revert k0 acc l. induction niches as [|i niches IH]; intros k0 acc l Hl; simpl.
  - by rewrite app_nil_r.
  - destruct (decide (i = k)) as [->|Hne].
    + rewrite (IH (S k0) _ (l ++ [k0])).
      * by rewrite <- app_assoc.
      * by rewrite list_lookup_alter_eq, Hl.
    + apply IH. by rewrite list_lookup_alter_ne.
Qed.

Lemma niches_to_ind_lookup niches n k :
  k < n ->
  assign_niches 0 niches (replicate n []) !! k = Some (candidates_of 0 niches k).
Proof.
  intros Hk. rewrite (assign_niches_lookup _ _ _ _ []); [done|].
  by apply lookup_replicate_2.
Qed.

Lemma elem_of_candidates_of niches k0 k j :
  j ∈ candidates_of k0 niches k <-> exists i, j = k0 + i /\ niches !! i = Some k.
Proof.
  revert k0. induction niches as [|n niches IH]; intros k0; simpl.
  - split; [by intros ?%elem_of_nil|by intros (i & _ & ?)].
  - rewrite elem_of_app, IH. split.
    + intros [Hj | (i & -> & Hi)].
      * destruct (decide (n = k)) as [->|]; [|by apply elem_of_nil in Hj].
        apply list_elem_of_singleton in Hj as ->. exists 0. split; [lia|done].
      * exists (S i). split; [lia|done].
    + intros ([|i] & -> & Hi); simpl in Hi.
      * left. injection Hi as ->. rewrite decide_True by done.
        rewrite Nat.add_0_r. apply list_elem_of_singleton. done.
      * right. exists i. split; [lia|done].
Qed.

Lemma candidates_of_lt niches k0 k j : j ∈ candidates_of k0 niches k -> j < k0 + length niches.
Proof.
  intros (i & -> & Hi)%elem_of_candidates_of. apply lookup_lt_Some in Hi. lia.
Qed.

Lemma candidates_of_NoDup niches k0 k : NoDup (candidates_of k0 niches k).
Proof.
  revert k0. induction niches as [|n niches IH]; intros k0; simpl; [constructor|].
  destruct (decide (n = k)); simpl; [|done].
  constructor; [|done]. intros (i & Hi & _)%elem_of_candidates_of. lia.
Qed.

(** *** The loop over the niches *)

Lemma zip_with_map_same {A B C D} (f : B -> C -> D) (g : A -> B) (h : A -> C) (l : list A) :
  zip_with f (map g l) (map h l) = map (fun x => f (g x) (h x)) l.
Proof. induction l as [|x l IH]; simpl; [done|]. by rewrite IH. Qed.

Lemma foldl_zip_map {A B C S} (f : S -> A -> B -> C -> S) (g : A -> B) (h : A -> C)
    (l : list A) (s : S) :
  foldl (fun s '(i, (t, a)) => f s i t a) s (zip l (zip (map g l) (map h l))) =
  foldl (fun s i => f s i (g i) (h i)) s l.
Proof. revert s. induction l as [|x l IH]; intros s; simpl; [done|]. by rewrite IH. Qed.

Section Loop.
Variable (self : t R) (problem : Problem) (progress : R).
Variable (dist : list R) (angle : list (list R)) (nti : list (list nat)).

(** The power, where it has a value, is that of the C function. *)
Lemma py_pow_Some (x y p : R) : py_pow x y = Some p -> p = fpow x y.
Proof.
  unfold py_pow. repeat (destruct (_ && _); [done|]). by intros [= <-].
Qed.

(** One pass of the loop body: on an occupied niche the power is taken,
    and the pass raises when the power does. *)
Lemma niche_step_components pop survivors k :
  niche_step self problem progress dist angle nti (pop, survivors) k =
    (_ ← (if decide (0 < length (nti !!! k)) then py_pow progress (alpha self)
          else Some fone);
     Some (niche_population self problem progress dist angle nti pop k,
           survivors ++ from_option (fun s => [s]) []
                          (niche_winner self problem progress dist angle nti k))).
Proof.
  unfold niche_step, niche_population, niche_winner.
  destruct (decide (0 < length (nti !!! k))) as [Hne|Hemp]; simpl;
    [|by rewrite app_nil_r].
  destruct (py_pow progress (alpha self)) as [p|] eqn:Hp; simpl; [|done].
  apply py_pow_Some in Hp as ->.
  unfold niche_survivor, mark_assigned, set_assigned.
  rewrite !map_map, zip_with_map_same.
  unfold angle_penalized_distance. f_equal. f_equal. f_equal.
  exact (foldl_zip_map
           (fun pop i t a => alter (Individual.set_niche_attrs t a k) i pop) _ _ _ _).
Qed.

(** What the loop returns, when it returns. *)
Lemma niche_loop_components ks pop survivors st :
  for_each (niche_step self problem progress dist angle nti) (pop, survivors) ks = Some st ->
  st = (foldl (niche_population self problem progress dist angle nti) pop ks,
        survivors ++ omap (niche_winner self problem progress dist angle nti) ks).
Proof.
  revert pop survivors. induction ks as [|k ks IH]; intros pop survivors.
  - simpl. intros [= <-]. by rewrite app_nil_r.
  - cbn [for_each]. rewrite niche_step_components.
    destruct (if decide _ then _ else _) as [p|]; simpl; [|done].
    intros Hst. apply IH in Hst as ->. f_equal.
    destruct (niche_winner _ _ _ _ _ _ k); simpl; [|by rewrite app_nil_r].
    by rewrite <- app_assoc.
Qed.

(** The loop returns when the power has a value. *)
Lemma niche_loop_returns ks pop survivors :
  is_Some (py_pow progress (alpha self)) ->
  is_Some (for_each (niche_step self problem progress dist angle nti) (pop, survivors) ks).
Proof.
  intros [p Hp]. revert pop survivors.
  induction ks as [|k ks IH]; intros pop survivors; cbn [for_each]; [by eauto|].
  rewrite niche_step_components, Hp.
  destruct (decide _); simpl; apply IH.
Qed.

(** The loop raises when the power does and a niche is occupied. *)
Lemma niche_loop_raises ks pop survivors k :
  py_pow progress (alpha self) = None -> k ∈ ks -> 0 < length (nti !!! k) ->
  for_each (niche_step self problem progress dist angle nti) (pop, survivors) ks = None.
Proof.
  intros Hp Hk Hocc. revert pop survivors.
  induction ks as [|k' ks IH]; intros pop survivors; [by apply elem_of_nil in Hk|].
  cbn [for_each]. rewrite niche_step_components, Hp.
  destruct (decide (0 < length (nti !!! k'))) as [|Hemp]; simpl; [done|].
  apply IH. apply elem_of_cons in Hk as [->|Hk]; [done|exact Hk].
Qed.

Lemma length_mark_assigned k pop a :
  length (mark_assigned self problem progress dist angle k pop a) = length pop.
Proof.
  unfold mark_assigned. revert pop. induction a as [|x a IH]; intros pop; simpl; [done|].
  by rewrite IH, length_alter.
Qed.

Lemma length_niche_population pop k :
  length (niche_population self problem progress dist angle nti pop k) = length pop.
Proof.
  unfold niche_population. case_decide; [|done].
  by rewrite length_alter, length_mark_assigned.
Qed.

Lemma length_niche_loop ks pop :
  length (foldl (niche_population self problem progress dist angle nti) pop ks)
  = length pop.
Proof.
  revert pop. induction ks as [|k ks IH]; intros pop; simpl; [done|].
  by rewrite IH, length_niche_population.
Qed.

Lemma mark_assigned_lookup k pop a i :
  mark_assigned self problem progress dist angle k pop a !! i =
    if decide (i ∈ a)
    then Individual.set_niche_attrs
           ((angle !!! i) !!! k)
           (angle_penalized_distance self problem progress dist angle k i) k
         <$> pop !! i
    else pop !! i.
Proof.
  unfold mark_assigned. revert pop. induction a as [|x a IH]; intros pop; simpl.
  - done.
  - rewrite IH. destruct (decide (i = x)) as [->|Hne].
    + rewrite list_lookup_alter_eq.
      repeat case_decide; try (by destruct (pop !! x)); set_solver.
    + rewrite list_lookup_alter_ne by done.
      repeat case_decide; try done; set_solver.
Qed.

(** The survivor of a non-empty niche is one of its candidates. *)
Lemma niche_survivor_elem a k :
  0 < length a ->
  niche_survivor self problem progress dist angle a k ∈ a.
Proof.
  intros Hne. unfold niche_survivor.
  destruct (argmin _) as [j|] eqn:Hj; simpl.
  - apply argmin_bound in Hj. rewrite length_map in Hj.
    apply list_elem_of_lookup_total_2. done.
  - destruct a; simpl in *; [lia|]. left.
Qed.

Lemma niche_population_lookup pop k i :
  niche_population self problem progress dist angle nti pop k !! i =
    if decide (i ∈ nti !!! k)
    then with_selection_attrs self problem progress dist angle nti k i <$> pop !! i
    else pop !! i.
Proof.
  unfold niche_population, with_selection_attrs.
  destruct (decide (0 < length (nti !!! k))) as [Hne|Hemp].
  - pose proof (niche_survivor_elem _ k Hne) as Hs.
    set (s := niche_survivor _ _ _ _ _ _ _) in *.
    destruct (decide (i = s)) as [->|Hi].
    + rewrite list_lookup_alter_eq, mark_assigned_lookup.
      case_decide; [|done]. by destruct (pop !! s).
    + rewrite list_lookup_alter_ne, mark_assigned_lookup by done. done.
  - destruct (nti !!! k); simpl in *; [done|lia].
Qed.

(** After the loop over the niches [ks], a candidate carries the
    attributes of its own niche, provided the loop visited it. *)
Lemma niche_loop_lookup (niches : list nat) ks pop i :
  NoDup ks ->
  (forall k, k ∈ ks -> nti !!! k = candidates_of 0 niches k) ->
  foldl (niche_population self problem progress dist angle nti) pop ks !! i =
    match niches !! i with
    | Some k =>
        if decide (k ∈ ks)
        then with_selection_attrs self problem progress dist angle nti k i <$> pop !! i
        else pop !! i
    | None => pop !! i
    end.
Proof.
  revert pop. induction ks as [|k ks IH]; intros pop Hnd Hnti; simpl.
  - by destruct (niches !! i).
  - apply NoDup_cons in Hnd as [Hk Hnd].
    rewrite IH; [|done|by intros; apply Hnti; right].
    rewrite niche_population_lookup, (Hnti k) by left.
    assert (Hmem : i ∈ candidates_of 0 niches k <-> niches !! i = Some k).
    { rewrite elem_of_candidates_of. split; [by intros (i' & -> & ?)|by exists i]. }
    destruct (niches !! i) as [k'|] eqn:Hi.
    + destruct (decide (k' = k)) as [->|Hne].
      * repeat case_decide; try done; try set_solver; exfalso; tauto.
      * repeat case_decide; try done; try set_solver;
          exfalso; assert (Some k' = Some k) by tauto; congruence.
    + case_decide; [|done]. assert (None = Some k) by tauto. done.
Qed.
End Loop.

(** *** Shape of the niche assignment *)

Lemma length_dist_to_ideal_of ideal (pop : list (Individual.t R)) :
  length (dist_to_ideal_of ideal pop) = length pop.
Proof. unfold dist_to_ideal_of, norm_axis1, sub_rowvec. by rewrite !length_map. Qed.

Lemma length_arccos_argument V ideal (pop : list (Individual.t R)) :
  length (arccos_argument V ideal pop) = length pop.
Proof.
  unfold arccos_argument, matmul_T, div_rows, sub_rowvec.
  rewrite length_map, length_zip_with, length_dist_to_ideal_of, !length_map. lia.
Qed.

Lemma arccos_argument_row V ideal (pop : list (Individual.t R)) i row :
  arccos_argument V ideal pop !! i = Some row -> length row = length V.
Proof.
  unfold arccos_argument, matmul_T. rewrite list_lookup_fmap.
  destruct (div_rows _ _ !! i); simpl; [|done]. intros [= <-]. by rewrite length_map.
Qed.

Lemma niches_of_length V ideal (pop : list (Individual.t R)) niches :
  niches_of V ideal pop = Some niches -> length niches = length pop.
Proof.
  unfold niches_of. intros Hn%mapM_Some%Forall2_length.
  unfold acute_angle_of in Hn. by rewrite length_map, length_arccos_argument in Hn.
Qed.

Lemma niches_of_bound V ideal (pop : list (Individual.t R)) niches i k :
  niches_of V ideal pop = Some niches -> niches !! i = Some k -> k < length V.
Proof.
  unfold niches_of. intros Hn%mapM_Some Hi.
  destruct (Forall2_lookup_r _ _ _ _ _ Hn Hi) as (row & Hrow & Hk).
  apply argmin_bound in Hk. unfold acute_angle_of in Hrow.
  rewrite list_lookup_fmap in Hrow.
  destruct (arccos_argument V ideal pop !! i) as [row0|] eqn:Hrow0; simpl in Hrow; [|done].
  injection Hrow as <-. rewrite length_map in Hk.
  by rewrite (arccos_argument_row _ _ _ _ _ Hrow0) in Hk.
Qed.

(** *** The outcome of a selection call *)

Lemma _do_outcome (self : t R) problem pop termination self' pop' ret :
  _do self problem pop termination = Some (self', pop', ret) ->
  exists ideal0 ideal1 niches nadir1,
    ideal self = Some ideal0 /\
    new_ideal ideal0 pop = Some ideal1 /\
    niches_of (V self) ideal1 pop = Some niches /\
    let dist := dist_to_ideal_of ideal1 pop in
    let angle := acute_angle_of (V self) ideal1 pop in
    let nti := assign_niches 0 niches (replicate (length (V self)) []) in
    let ks := seq 0 (length (V self)) in
    pop' = foldl (niche_population self problem (perc termination) dist angle nti) pop ks /\
    ret = map (fun i => pop' !!! i)
              (omap (niche_winner self problem (perc termination) dist angle nti) ks) /\
    max_axis0 (map Individual.F ret) = Some nadir1 /\
    self' = mk (filter_infeasible self) (alpha self) (Some nti) (V self) (gamma self)
               (Some ideal1) (Some nadir1) (ref_dirs self) (extreme_ref_dirs self).
Proof.
  rewrite _do_phases. intros Hdo.
  destruct (ideal self) as [ideal0|]; simpl in Hdo; [|done].
  destruct (new_ideal ideal0 pop) as [ideal1|] eqn:Hideal; simpl in Hdo; [|done].
  destruct (niches_of (V self) ideal1 pop) as [niches|] eqn:Hniches; simpl in Hdo; [|done].
  destruct (for_each _ _ _) as [st|] eqn:Hloop; simpl in Hdo; [|done].
  apply niche_loop_components in Hloop as ->. simpl in Hdo.
  destruct (max_axis0 _) as [nadir1|] eqn:Hnadir; simpl in Hdo; [|done].
  injection Hdo as <- <- <-.
  exists ideal0, ideal1, niches, nadir1. repeat split; done.
Qed.

Lemma omap_filter_map {A B C} (f : A -> option B) (g : B -> C) (h : A -> C)
    (P : A -> Prop) `{forall x, Decision (P x)} (l : list A) :
  (forall x, x ∈ l -> match f x with Some y => P x /\ g y = h x | None => ~ P x end) ->
  map g (omap f l) = map h (filter P l).
Proof.
  induction l as [|x l IH]; intros Hl; [done|].
  rewrite filter_cons. simpl.
  pose proof (Hl x (list_elem_of_here x l)) as Hx.
  assert (IH' : map g (omap f l) = map h (filter P l)).
  { apply IH. intros y Hy. apply Hl. by right. }
  destruct (f x) as [y|]; simpl.
  - destruct Hx as [HP Hg]. rewrite decide_True by done. simpl. by f_equal.
  - by rewrite decide_False.
Qed.

Section Winners.
Variable (self : t R) (problem : Problem) (progress : R).
Variable (dist : list R) (angle : list (list R)).
Variable (niches : list nat) (n : nat).

Let nti := assign_niches 0 niches (replicate n []).

Lemma nti_lookup_total k : k < n -> nti !!! k = candidates_of 0 niches k.
Proof.
  intros Hk. apply list_lookup_total_correct. by apply niches_to_ind_lookup.
Qed.

Lemma candidates_nonempty k : 0 < length (candidates_of 0 niches k) <-> k ∈ niches.
Proof.
  rewrite list_elem_of_lookup. split.
  - destruct (candidates_of 0 niches k) as [|j l] eqn:Hc; simpl; [lia|]. intros _.
    assert (Hj : j ∈ candidates_of 0 niches k) by (rewrite Hc; left).
    apply elem_of_candidates_of in Hj as (i & _ & Hi). eauto.
  - intros [i Hi].
    assert (Hj : i ∈ candidates_of 0 niches k).
    { apply elem_of_candidates_of. by exists i. }
    destruct (candidates_of 0 niches k); simpl; [by apply elem_of_nil in Hj|lia].
Qed.

(** A direction has a survivor exactly when a candidate is assigned to
    it; the survivor is one of these candidates. *)
Lemma niche_winner_spec k :
  k < n ->
  match niche_winner self problem progress dist angle nti k with
  | Some s => k ∈ niches /\ niches !! s = Some k
  | None => k ∉ niches
  end.
Proof.
  intros Hk. unfold niche_winner. rewrite (nti_lookup_total k Hk).
  destruct (decide (0 < length (candidates_of 0 niches k))) as [Hne|Hemp].
  - split; [by apply candidates_nonempty|].
    pose proof (niche_survivor_elem self problem progress dist angle _ k Hne) as Hs.
    apply elem_of_candidates_of in Hs as (i & Hi & Hs). simpl in Hi. by rewrite Hi.
  - by rewrite <- candidates_nonempty.
Qed.
End Winners.

(** The candidate [i] of niche [k] after the call: the input candidate with
    the attributes of the selection on it. *)
Lemma _do_candidate (self : t R) problem pop termination self' pop' ret :
  _do self problem pop termination = Some (self', pop', ret) ->
  exists ideal0 ideal1 niches,
    ideal self = Some ideal0 /\
    new_ideal ideal0 pop = Some ideal1 /\
    niches_of (V self) ideal1 pop = Some niches /\
    length pop' = length pop /\
    forall i k, niches !! i = Some k ->
      exists c, pop !! i = Some c /\
        pop' !! i =
          Some (with_selection_attrs self problem (perc termination)
                  (dist_to_ideal_of ideal1 pop) (acute_angle_of (V self) ideal1 pop)
                  (assign_niches 0 niches (replicate (length (V self)) [])) k i c).
Proof.
  intros Hdo.
  apply _do_outcome in Hdo as (ideal0 & ideal1 & niches & nadir1 & Hi0 & Hi1 & Hn & Hpop & _).
  exists ideal0, ideal1, niches. repeat split; try done.
  - rewrite Hpop. apply length_niche_loop.
  - intros i k Hik.
    assert (Hk : k < length (V self)) by by eapply niches_of_bound.
    assert (Hlt : i < length pop).
    { rewrite <- (niches_of_length _ _ _ _ Hn). by eapply lookup_lt_Some. }
    destruct (lookup_lt_is_Some_2 pop i Hlt) as [c Hc]. exists c. split; [done|].
    rewrite Hpop, (niche_loop_lookup _ _ _ _ _ _ niches).
    + rewrite Hik, decide_True, Hc; [done|]. apply elem_of_seq. lia.
    + apply NoDup_seq.
    + intros k' Hk'%elem_of_seq. apply nti_lookup_total. lia.
Qed.

(** A non-empty population occupies a niche. *)
Lemma occupied_niche V ideal (pop : list (Individual.t R)) niches :
  niches_of V ideal pop = Some niches -> pop <> [] ->
  exists k, k ∈ seq 0 (length V) /\
            0 < length (assign_niches 0 niches (replicate (length V) []) !!! k).
Proof.
  intros Hn Hpop. destruct pop as [|c pop]; [done|].
  pose proof (niches_of_length _ _ _ _ Hn) as Hlen.
  destruct niches as [|k niches]; [done|].
  assert (Hk : k < length V) by (eapply (niches_of_bound _ _ _ _ 0); done).
  exists k. split; [apply elem_of_seq; lia|].
  rewrite (nti_lookup_total _ _ _ Hk). apply candidates_nonempty. left.
Qed.

(** [_do] with the loop resolved: by the time the loop is reached a niche
    is occupied, so the power is taken, once and for all passes; when it has
    a value the loop sets the attributes niche by niche and collects the
    winners. *)
Lemma _do_guarded (self : t R) problem pop termination :
  _do self problem pop termination =
    (ideal0 ← ideal self;
     ideal' ← new_ideal ideal0 pop;
     let dist := dist_to_ideal_of ideal' pop in
     let angle := acute_angle_of (V self) ideal' pop in
     niches ← niches_of (V self) ideal' pop;
     let nti := assign_niches 0 niches (replicate (length (V self)) []) in
     let ks := seq 0 (length (V self)) in
     _ ← py_pow (perc termination) (alpha self);
     let pop' := foldl (niche_population self problem (perc termination) dist angle nti)
                       pop ks in
     let ret := map (fun i => pop' !!! i)
                    (omap (niche_winner self problem (perc termination) dist angle nti) ks) in
     nadir' ← max_axis0 (map Individual.F ret);
     Some (mk (filter_infeasible self) (alpha self) (Some nti) (V self) (gamma self)
              (Some ideal') (Some nadir') (ref_dirs self) (extreme_ref_dirs self),
           pop', ret)).
Proof.
  rewrite _do_phases.
  destruct (ideal self) as [ideal0|]; simpl; [|done].
  destruct (new_ideal ideal0 pop) as [ideal1|] eqn:Hi1; simpl; [|done].
  destruct (niches_of (V self) ideal1 pop) as [niches|] eqn:Hn; simpl; [|done].
  assert (Hpop : pop <> []).
  { intros ->. unfold new_ideal in Hi1. done. }
  destruct (occupied_niche _ _ _ _ Hn Hpop) as (k & Hk & Hocc).
  destruct (py_pow (perc termination) (alpha self)) as [p|] eqn:Hp; simpl.
  - destruct (niche_loop_returns (set_ideal self (Some ideal1)) problem (perc termination)
                (dist_to_ideal_of ideal1 pop) (acute_angle_of (V self) ideal1 pop)
                (assign_niches 0 niches (replicate (length (V self)) []))
                (seq 0 (length (V self))) pop []) as [st Hst].
    { simpl. rewrite Hp. eauto. }
    rewrite Hst. apply niche_loop_components in Hst as ->. simpl. done.
  - rewrite (niche_loop_raises (set_ideal self (Some ideal1)) _ _ _ _ _ _ _ _ k); done.
Qed.

(** A selection call returns once the population and the set of directions
    are not empty and the power has a value. *)
Lemma _do_is_Some (self : t R) problem pop termination :
  pop <> [] -> V self <> [] -> is_Some (ideal self) ->
  is_Some (py_pow (perc termination) (alpha self)) ->
  is_Some (_do self problem pop termination).
Proof.
  intros Hpop HV [ideal0 Hi0] [p Hp].
  rewrite _do_guarded, Hi0. simpl.
  destruct (new_ideal ideal0 pop) as [ideal1|] eqn:Hi1; simpl.
  2:{ unfold new_ideal in Hi1. destruct pop; [done|]. done. }
  destruct (niches_of (V self) ideal1 pop) as [niches|] eqn:Hn; simpl.
  2:{ exfalso. unfold niches_of in Hn.
      assert (Hs : is_Some (mapM argmin (acute_angle_of (V self) ideal1 pop))).
      { apply mapM_is_Some, Forall_forall. intros row Hrow. simpl.
        apply argmin_is_Some. unfold acute_angle_of in Hrow.
        apply list_elem_of_fmap in Hrow as (row0 & -> & Hrow0).
        apply list_elem_of_lookup in Hrow0 as [i Hrow0].
        apply arccos_argument_row in Hrow0.
        destruct row0; simpl in *; [|done]. by destruct (V self). }
      rewrite Hn in Hs. by destruct Hs. }
  rewrite Hp. simpl.
  set (winners := omap _ _).
  destruct winners as [|s winners'] eqn:Hw; simpl; [|eauto].
  exfalso. destruct pop as [|c pop]; [done|].
  assert (Hlen : length niches = length (c :: pop)) by by eapply niches_of_length.
  destruct niches as [|k niches]; [done|].
  assert (Hk : k < length (V self)).
  { eapply (niches_of_bound _ _ _ _ 0); [done|done]. }
  pose proof (niche_winner_spec self problem (perc termination)
                (dist_to_ideal_of ideal1 (c :: pop))
                (acute_angle_of (V self) ideal1 (c :: pop))
                (k :: niches) _ k Hk) as Hspec.
  destruct (niche_winner _ _ _ _ _ _ k) as [s|] eqn:Hs.
  - assert (Hin : s ∈ winners).
    { apply list_elem_of_omap. exists k. split; [|done]. apply elem_of_seq. lia. }
    rewrite Hw in Hin. by apply elem_of_nil in Hin.
  - apply Hspec. left.
Qed.

End SelectionFacts.

(** ** Frame and error behaviour of the selection *)

Section SelectionFrame.
Context {R : Type} `{Num R} `{Libm R}.
Import APDSurvival.

(** C10: a selection call leaves the geometry of the engine as it was: the
    unit directions [V], the neighbor angles [gamma], the stored reference
    directions and the exponent [alpha] of the returned engine are those of
    the engine it was called on. *)
Theorem _do_preserves_geometry (self : t R) problem pop termination self' pop' ret :
  _do self problem pop termination = Some (self', pop', ret) ->
  V self' = V self /\ gamma self' = gamma self /\
  ref_dirs self' = ref_dirs self /\ alpha self' = alpha self.
Proof.
  intros Hdo.
  apply _do_outcome in Hdo as (ideal0 & ideal1 & niches & nadir1 & _ & _ & _ & _ & _ & _ & ->).
  done.
Qed.

(** C9: a termination that is neither generation-based nor
    evaluation-based does not make the selection raise: the call does what
    it does under a recognised termination with the same progress value,
    which is used as it is; so it returns where that call returns, which is
    on a non-empty population and a well-shaped engine with a direction,
    when [progress ** alpha] has a value. *)
Theorem _do_unrecognised_termination (self : t R) problem pop progress :
  pop <> [] -> V self <> [] -> well_shaped self pop ->
  is_Some (py_pow progress (alpha self)) ->
  is_Some (_do self problem pop (mkTermination OtherTermination progress)) /\
  forall ty,
    _do self problem pop (mkTermination OtherTermination progress) =
    _do self problem pop (mkTermination ty progress).
Proof.
  intros Hpop HV (m & ideal0 & Hideal & _) Hpow. split.
  - apply _do_is_Some; [done|done| |done]. rewrite Hideal. eauto.
  - intros ty. reflexivity.
Qed.

(** C7: on an engine fresh from the constructor, before any selection, an
    estimate is missing and the adaptation returns the engine unchanged, [V]
    and [gamma] included. *)
Theorem adapt_before_select (ref_dirs : list (list R)) (alpha : R) (self : t R) :
  __init__ ref_dirs alpha = Some self ->
  (ideal self = None \/ nadir self = None) /\ adapt self = Some self.
Proof.
  unfold __init__. intros Hinit.
  destruct (shape1 ref_dirs) as [n_dim|]; simpl in Hinit; [|done].
  destruct (calc_gamma _) as [gamma|]; simpl in Hinit; [|done].
  injection Hinit as <-. split; [by right|done].
Qed.
End SelectionFrame.

(** ** One survivor per occupied niche *)

Section Survivors.
Context {R : Type} `{Num R} `{Libm R}.
Import APDSurvival.

Lemma niche_with_selection_attrs (self : t R) problem progress dist angle nti k i c :
  Individual.niche (with_selection_attrs self problem progress dist angle nti k i c) = Some k.
Proof. unfold with_selection_attrs. by case_decide. Qed.

(** C3: the niches of the returned survivors are exactly the directions that
    have a candidate assigned, each once and in the order of the directions;
    so the survivors are as many as the occupied directions, at most as many
    as the directions, and a direction without candidate has no survivor. *)
Theorem survivor_count (self : t R) problem pop termination self' pop' ret :
  _do self problem pop termination = Some (self', pop', ret) ->
  exists ideal0 ideal1 niches,
    ideal self = Some ideal0 /\
    new_ideal ideal0 pop = Some ideal1 /\
    niches_of (V self) ideal1 pop = Some niches /\
    let occupied := filter (fun k => k ∈ niches) (seq 0 (length (V self))) in
    map Individual.niche ret = map Some occupied /\
    length ret = length occupied /\
    length ret <= length (V self).
Proof.
  intros Hdo.
  destruct (_do_candidate _ _ _ _ _ _ _ Hdo)
    as (ideal0 & ideal1 & niches & Hi0 & Hi1 & Hn & Hlen & Hcand).
  apply _do_outcome in Hdo
    as (ideal0' & ideal1' & niches' & nadir1 & Hi0' & Hi1' & Hn' & Hpop & Hret & _).
  assert (ideal0' = ideal0) as -> by congruence.
  assert (ideal1' = ideal1) as -> by congruence.
  assert (niches' = niches) as -> by congruence.
  exists ideal0, ideal1, niches. split; [done|]. split; [done|]. split; [done|].
  assert (Hmap : map Individual.niche ret =
                 map Some (filter (fun k => k ∈ niches) (seq 0 (length (V self))))).
  { rewrite Hret, map_map.
    apply (omap_filter_map _ (fun i => Individual.niche (pop' !!! i)) Some (fun k => k ∈ niches)).
    intros k Hk%elem_of_seq.
    pose proof (niche_winner_spec self problem (perc termination)
                  (dist_to_ideal_of ideal1 pop) (acute_angle_of (V self) ideal1 pop)
                  niches (length (V self)) k ltac:(lia)) as Hspec.
    destruct (niche_winner _ _ _ _ _ _ k) as [s|]; [|done].
    destruct Hspec as [Hocc Hs]. split; [done|].
    destruct (Hcand s k Hs) as (c & _ & Hc).
    rewrite (list_lookup_total_correct _ _ _ Hc).
    apply niche_with_selection_attrs. }
  simpl. split; [done|].
  assert (Hl : length ret = length (filter (fun k => k ∈ niches) (seq 0 (length (V self))))).
  { apply (f_equal length) in Hmap. by rewrite !length_map in Hmap. }
  split; [done|]. rewrite Hl.
  etrans; [apply length_filter|]. by rewrite length_seq.
Qed.
End Survivors.

(** ** The angle-penalized distance and the survivor of a niche *)

Section PenalizedDistance.
Context {R : Type} `{NumOrder R} `{Libm R}.
Import APDSurvival.




Section Niche.
Variable (self : t R) (problem : Problem) (progress : R).
Variable (dist : list R) (angle : list (list R)).
Variable (niches : list nat) (k : nat).

Let apd := angle_penalized_distance self problem progress dist angle k.
Let a := candidates_of 0 niches k.
Let s := niche_survivor self problem progress dist angle a k.


End Niche.

End PenalizedDistance.

(** ** The optimizer shell *)

Section Shell.
Context {R : Type} `{NumOrder R} `{Libm R}.
Import RVEA.

Variable default_ref_dirs : nat -> list (list R).
Variable super_advance : t R -> option (t R).
Variable feasible : Individual.t R -> bool.

(** C6: [_setup] starts the counter at 1.  An advance call divides the
    progress by [adapt_freq], which raises ZeroDivisionError when [adapt_freq]
    is zero, and compares the quotient with the counter once: when the
    quotient reaches the counter the engine is adapted one time and the
    counter grows by exactly 1, however far the quotient is ahead; otherwise
    the state the generational step produced is returned as it is. *)
Theorem advance_cadence :
  (forall (self self0 : t R) problem,
     _setup default_ref_dirs self problem = Some self0 -> n_adapt self0 = Some 1) /\
  (forall (self self1 : t R) n,
     super_advance self = Some self1 -> n_adapt self1 = Some n ->
     (feqb (adapt_freq self1) fzero = true -> _advance super_advance self = None) /\
     (feqb (adapt_freq self1) fzero = false ->
      let due := fgeb (fdiv (perc (termination self1)) (adapt_freq self1)) (of_nat n) in
      (due = false -> _advance super_advance self = Some self1) /\
      (due = true ->
       forall s s', survival self1 = Some s -> APDSurvival.adapt s = Some s' ->
         _advance super_advance self =
           Some (mk (ref_dirs self1) (alpha self1) (adapt_freq self1) (pop_size self1)
                    (n_offsprings self1) (Some s') (Some (n + 1))
                    (termination self1) (pop self1) (opt self1))) /\
      (forall self', _advance super_advance self = Some self' ->
         exists n', n_adapt self' = Some n' /\ n <= n' <= n + 1 /\
                    (n' = n + 1 <-> due = true)))).
Proof.
  split.
  - intros self self0 problem. unfold _setup.
    destruct (ref_dirs self); simpl;
      destruct (survival self); simpl;
      try destruct (APDSurvival.__init__ _ _); simpl; intros [= <-]; done.
  - intros self self1 n Hsuper Hn. unfold _advance, py_div. rewrite Hsuper. simpl.
    split; [by intros ->|]. intros ->. simpl. rewrite Hn. simpl.
    set (due := fgeb (fdiv (perc (termination self1)) (adapt_freq self1)) (of_nat n)).
    repeat split.
    + by intros ->.
    + intros -> s s' -> Hs'. simpl. by rewrite Hs'.
    + intros self'. destruct due.
      * destruct (survival self1) as [s|]; simpl; [|done].
        destruct (APDSurvival.adapt s) as [s'|]; simpl; [|done].
        intros [= <-]. exists (n + 1). simpl. split; [done|]. split; [lia|]. done.
      * intros [= <-]. exists n. split; [done|]. split; [lia|]. split; [lia|done].
Qed.

(** C8: with a feasible candidate in the population the optimum the call
    stores in [opt] is the whole population; without one it is the single
    candidate at the first position of a least constraint violation.  No other
    attribute of the optimizer changes. *)
Theorem set_optimum_spec (self : t R) :
  (has_feasible feasible (pop self) = true ->
   _set_optimum feasible self =
     Some (mk (ref_dirs self) (alpha self) (adapt_freq self) (pop_size self)
             (n_offsprings self) (survival self) (n_adapt self)
             (termination self) (pop self) (Some (pop self)))) /\
  (has_feasible feasible (pop self) = false ->
   pop self <> [] ->
   Forall (fun c => feqb (Individual.CV c) (Individual.CV c) = true) (pop self) ->
   exists i c,
     pop self !! i = Some c /\
     (forall j c', pop self !! j = Some c' ->
        fleb (Individual.CV c) (Individual.CV c') = true /\
        (j < i -> fleb (Individual.CV c') (Individual.CV c) = false)) /\
     _set_optimum feasible self =
       Some (mk (ref_dirs self) (alpha self) (adapt_freq self) (pop_size self)
             (n_offsprings self) (survival self) (n_adapt self)
             (termination self) (pop self) (Some [c]))).
Proof.
  unfold _set_optimum. split.
  - by intros ->.
  - intros -> Hne Hnan. simpl.
    destruct (argmin (map Individual.CV (pop self))) as [i|] eqn:Hi.
    2:{ destruct (pop self); [done|]. discriminate. }
    simpl. pose proof (argmin_bound _ _ Hi) as Hlt. rewrite length_map in Hlt.
    destruct (lookup_lt_is_Some_2 _ _ Hlt) as [c Hc].
    exists i, c. split; [done|]. split.
    + apply argmin_first_min in Hi as (m & Hm & Hmin); [|by apply Forall_fmap].
      rewrite list_lookup_fmap, Hc in Hm. injection Hm as <-.
      intros j c' Hj. apply (Hmin j). by rewrite list_lookup_fmap, Hj.
    + by rewrite (list_lookup_total_correct _ _ _ Hc).
Qed.
End Shell.

(** ** The ideal point *)

Section IdealPoint.
Context {R : Type} `{NumOrder R} `{Libm R}.
Import APDSurvival.

(** The element-wise minimum of two arrays without NaN. *)
Lemma ew_minimum_spec (a b : list R) :
  length a = length b ->
  Forall (fun x => feqb x x = true) a -> Forall (fun x => feqb x x = true) b ->
  length (ew np_minimum a b) = length b /\
  Forall (fun x => feqb x x = true) (ew np_minimum a b) /\
  forall j x, ew np_minimum a b !! j = Some x ->
    exists y z, a !! j = Some y /\ b !! j = Some z /\
      fleb x y = true /\ fleb x z = true /\ (x = y \/ x = z).
Proof.
  intros Hlen Ha Hb. unfold ew.
  assert (Hpt : forall j x, zip_with np_minimum a b !! j = Some x ->
            exists y z, a !! j = Some y /\ b !! j = Some z /\ feqb x x = true /\
              fleb x y = true /\ fleb x z = true /\ (x = y \/ x = z)).
  { intros j x (y & z & -> & Hy & Hz)%lookup_zip_with_Some.
    pose proof (Forall_lookup_1 _ _ _ _ Ha Hy) as Hny.
    pose proof (Forall_lookup_1 _ _ _ _ Hb Hz) as Hnz. simpl in Hny, Hnz.
    exists y, z. split; [done|]. split; [done|].
    split; [by apply np_minimum_not_nan|].
    split; [by apply np_minimum_le_l|]. split; [by apply np_minimum_le_r|].
    apply np_minimum_cases. }
  split; [rewrite length_zip_with; lia|]. split.
  - apply Forall_lookup. intros j x Hx.
    destruct (Hpt j x Hx) as (y & z & _ & _ & Hn & _). done.
  - intros j x Hx. destruct (Hpt j x Hx) as (y & z & Hy & Hz & _ & Hrest). eauto.
Qed.

(** [F.min(axis=0)] continued over the rows [rs] from the running minimum
    [acc]: every component is below the component of [acc] and of every row,
    and is one of them. *)
Lemma foldl_minimum_spec (rs : list (list R)) (acc : list R) :
  Forall (fun x => feqb x x = true) acc ->
  Forall (fun r => length r = length acc /\ Forall (fun x => feqb x x = true) r) rs ->
  length (foldl (ew np_minimum) acc rs) = length acc /\
  Forall (fun x => feqb x x = true) (foldl (ew np_minimum) acc rs) /\
  forall j x, foldl (ew np_minimum) acc rs !! j = Some x ->
    (forall y, acc !! j = Some y -> fleb x y = true) /\
    (forall r y, r ∈ rs -> r !! j = Some y -> fleb x y = true) /\
    (acc !! j = Some x \/ exists r, r ∈ rs /\ r !! j = Some x).
Proof.
  revert acc. induction rs as [|r rs IH]; intros acc Hacc Hrs; simpl.
  - split; [done|]. split; [done|]. intros j x Hx. split; [|split].
    + intros y Hy. assert (y = x) as -> by congruence.
      apply fleb_refl. by eapply (Forall_lookup_1 _ _ _ _ Hacc).
    + by intros r y ?%elem_of_nil.
    + by left.
  - apply Forall_cons in Hrs as [[Hlen Hr] Hrs].
    destruct (ew_minimum_spec acc r) as (Hlen' & Hnan' & Hpt'); [done|done|done|].
    destruct (IH (ew np_minimum acc r)) as (Hlen'' & Hnan'' & Hpt''); [done| |].
    { eapply Forall_impl; [exact Hrs|]. simpl. intros r' [? ?]. split; [congruence|done]. }
    split; [congruence|]. split; [done|].
    intros j x Hx. destruct (Hpt'' j x Hx) as (Hacc' & Hrs' & Hin).
    assert (Hmid : exists mid, ew np_minimum acc r !! j = Some mid).
    { apply lookup_lt_is_Some. rewrite <- Hlen''. by eapply lookup_lt_Some. }
    destruct Hmid as [mid Hmid].
    destruct (Hpt' j mid Hmid) as (y & z & Hy & Hz & Hle_y & Hle_z & Hcase).
    pose proof (Hacc' mid Hmid) as Hxm.
    split; [|split].
    + intros y' Hy'. assert (y' = y) as -> by congruence. by eapply fleb_trans.
    + intros r' y' [->|Hr']%elem_of_cons Hy'.
      * assert (y' = z) as -> by congruence. by eapply fleb_trans.
      * by eapply Hrs'.
    + destruct Hin as [Hin | (r' & Hr' & Hin)].
      * assert (x = mid) as -> by congruence.
        destruct Hcase as [-> | ->]; [by left|]. right. exists r. split; [left|done].
      * right. exists r'. split; [by right|done].
Qed.

(** The ideal point after line 156 of [_do]. *)
Lemma new_ideal_spec (ideal0 ideal1 : list R) (pop : list (Individual.t R)) :
  new_ideal ideal0 pop = Some ideal1 ->
  Forall (fun x => feqb x x = true) ideal0 ->
  Forall (fun c => length (Individual.F c) = length ideal0 /\
                   Forall (fun x => feqb x x = true) (Individual.F c)) pop ->
  length ideal1 = length ideal0 /\
  Forall (fun x => feqb x x = true) ideal1 /\
  forall j x, ideal1 !! j = Some x ->
    (forall y, ideal0 !! j = Some y -> fleb x y = true) /\
    (forall c y, c ∈ pop -> Individual.F c !! j = Some y -> fleb x y = true) /\
    (ideal0 !! j = Some x \/ exists c, c ∈ pop /\ Individual.F c !! j = Some x).
Proof.
  unfold new_ideal. destruct pop as [|c0 pop]; simpl; [done|].
  intros [= <-] Hnan0 Hpop. apply Forall_cons in Hpop as [[Hlen0 Hc0] Hpop].
  destruct (foldl_minimum_spec (map Individual.F pop) (Individual.F c0))
    as (Hlen & Hnan & Hpt); [done| |].
  { apply Forall_fmap. eapply Forall_impl; [exact Hpop|]. simpl.
    intros c [? ?]. split; [congruence|done]. }
  set (Fmin := foldl (ew np_minimum) (Individual.F c0) (map Individual.F pop)) in *.
  destruct (ew_minimum_spec Fmin ideal0) as (Hlen' & Hnan' & Hpt'); [congruence|done|done|].
  split; [done|]. split; [done|].
  intros j x Hx. destruct (Hpt' j x Hx) as (y & z & Hy & Hz & Hle_y & Hle_z & Hcase).
  destruct (Hpt j y Hy) as (Hc0' & Hrs & Hin).
  split; [|split].
  - intros z' Hz'. by assert (z' = z) as -> by congruence.
  - intros c y' [->|Hc]%elem_of_cons Hy'.
    + eapply fleb_trans; [exact Hle_y|]. by apply Hc0'.
    + eapply fleb_trans; [exact Hle_y|]. apply (Hrs (Individual.F c)); [|done].
      apply list_elem_of_fmap. by exists c.
  - destruct Hcase as [-> | ->]; [|by left]. right.
    destruct Hin as [Hin | (r & (c & -> & Hc)%list_elem_of_fmap & Hin)].
    + exists c0. split; [left|done].
    + exists c. split; [by right|done].
Qed.

(** C5: the constructor sets every component of the ideal point to
    +infinity.  Over any run of selection calls whose objective values have
    the dimension of the ideal point and are not NaN, the ideal point the
    engine ends with lies component-wise below the one it started with and
    below every objective value seen, and each of its components is the old
    one or a value seen: the component-wise minimum, which never increases. *)
Theorem ideal_point_monotone :
  (forall (ref_dirs : list (list R)) alpha (self : t R),
     __init__ ref_dirs alpha = Some self ->
     exists n_dim, shape1 ref_dirs = Some n_dim /\
                   ideal self = Some (replicate n_dim finf)) /\
  (forall (self self' : t R) problem calls ideal0,
     selects self problem calls = Some self' ->
     ideal self = Some ideal0 ->
     Forall (fun x => feqb x x = true) ideal0 ->
     Forall (fun call : list (Individual.t R) * Termination R =>
               Forall (fun c => length (Individual.F c) = length ideal0 /\
                                Forall (fun x => feqb x x = true) (Individual.F c))
                      call.1) calls ->
     exists ideal1,
       ideal self' = Some ideal1 /\
       Forall2 (fun new old => fleb new old = true) ideal1 ideal0 /\
       forall j x, ideal1 !! j = Some x ->
         (forall call c y, call ∈ calls -> c ∈ call.1 ->
            Individual.F c !! j = Some y -> fleb x y = true) /\
         (ideal0 !! j = Some x \/
          exists call c, call ∈ calls /\ c ∈ call.1 /\ Individual.F c !! j = Some x)).
Proof.
  split.
  - intros ref_dirs alpha self. unfold __init__.
    destruct (shape1 ref_dirs) as [n_dim|]; simpl; [|done].
    destruct (calc_gamma _); simpl; [|done]. intros [= <-]. by exists n_dim.
  - intros self self' problem calls. revert self.
    induction calls as [|[pop termination] calls IH]; intros self ideal0 Hrun Hi0 Hnan Hcalls.
    + simpl in Hrun. injection Hrun as <-. exists ideal0. split; [done|]. split.
      * apply Forall2_same_length_lookup_2; [done|]. intros i x y Hx Hy.
        assert (y = x) as -> by congruence.
        apply fleb_refl. by eapply (Forall_lookup_1 _ _ _ _ Hnan).
      * intros j x Hx. split; [by intros call c y ?%elem_of_nil|by left].
    + simpl in Hrun. apply Forall_cons in Hcalls as [Hpop Hcalls]. simpl in Hpop.
      destruct (_do self problem pop termination) as [[[self1 pop'] ret]|] eqn:Hdo;
        simpl in Hrun; [|done].
      apply _do_outcome in Hdo
        as (ideal0' & idealm & niches & nadir1 & Hi0' & Him & _ & _ & _ & _ & Hself1).
      assert (ideal0' = ideal0) as -> by congruence.
      destruct (new_ideal_spec _ _ _ Him Hnan Hpop) as (Hlen & Hnanm & Hptm).
      destruct (IH self1 idealm Hrun) as (ideal1 & Hi1 & Hmono & Hpt).
      { by rewrite Hself1. }
      { done. }
      { eapply Forall_impl; [exact Hcalls|]. simpl. intros call Hcall.
        eapply Forall_impl; [exact Hcall|]. simpl. intros c [? ?]. split; [congruence|done]. }
      exists ideal1. split; [done|].
      apply Forall2_same_length_lookup in Hmono as [Hlen1 Hmono].
      assert (Hmid : forall j x, ideal1 !! j = Some x ->
                exists mid, idealm !! j = Some mid /\ fleb x mid = true).
      { intros j x Hx. destruct (lookup_lt_is_Some_2 idealm j) as [mid Hmid].
        - rewrite <- Hlen1. by eapply lookup_lt_Some.
        - exists mid. split; [done|]. by eapply Hmono. }
      split.
      * apply Forall2_same_length_lookup_2; [congruence|]. intros j x y Hx Hy.
        destruct (Hmid j x Hx) as (mid & Hm & Hxm).
        destruct (Hptm j mid Hm) as (Hold & _ & _).
        eapply fleb_trans; [exact Hxm|]. by apply Hold.
      * intros j x Hx. destruct (Hmid j x Hx) as (mid & Hm & Hxm).
        destruct (Hptm j mid Hm) as (Hold & Hseen & Hin).
        destruct (Hpt j x Hx) as (Hseen' & Hin'). split.
        -- intros call c y [->|Hcall]%elem_of_cons Hc Hy.
           ++ eapply fleb_trans; [exact Hxm|]. by eapply Hseen.
           ++ by eapply Hseen'.
        -- destruct Hin' as [Hin' | (call & c & Hcall & Hc & Hin')].
           ++ assert (x = mid) as -> by congruence.
              destruct Hin as [Hin | (c & Hc & Hin)]; [by left|].
              right. exists (pop, termination), c. split; [left|done].
           ++ right. exists call, c. split; [by right|done].
Qed.
End IdealPoint.

(** ** The neighbor angles *)

Section NeighborAngle.
Context {R : Type} `{NumOrder R} `{!NumSign R} `{Libm R}.

Lemma feps_not_nan : feqb (feps : R) feps = true.
Proof.
  pose proof (feps_pos (R := R)) as Hpos. rewrite fltb_fleb in Hpos.
  apply andb_prop in Hpos as [Hle _]. by apply fleb_not_nan in Hle as [_ ?].
Qed.


(** The order of [np.sort] is a total preorder, NaN included. *)
#[local] Instance np_le_total : Total (np_le (R := R)).
Proof.
  intros x y. unfold np_le, is_nan.
  destruct (feqb y y) eqn:Hy; simpl; [|left; by rewrite orb_true_r].
  destruct (feqb x x) eqn:Hx; simpl; [|right; by rewrite orb_true_r].
  rewrite !orb_false_r. by apply fleb_total.
Qed.

#[local] Instance np_le_trans : Transitive (np_le (R := R)).
Proof.
  intros x y z. unfold np_le, is_nan.
  destruct (feqb z z) eqn:Hz; simpl; [|by rewrite !orb_true_r].
  rewrite orb_false_r. intros Hxy Hyz. rewrite orb_false_r.
  pose proof (fleb_not_nan _ _ Hyz) as [Hy _]. rewrite Hy in Hxy. simpl in Hxy.
  rewrite orb_false_r in Hxy. by eapply fleb_trans.
Qed.





(** A set of fewer than two directions has no second column: IndexError. *)
Lemma calc_gamma_too_few (V : list (list R)) : length V < 2 -> calc_gamma V = None.
Proof. intros Hlt. unfold calc_gamma, column. rewrite decide_False by lia. done. Qed.



Lemma same_refl (x : R) : same x x.
Proof.
  unfold same, is_nan. destruct (feqb x x); [by left|by right].
Qed.










End NeighborAngle.

(** ** The angle between a candidate and a direction *)

Section AcuteAngle.
Context {R : Type} `{Num R} `{Libm R}.
Import APDSurvival.

Lemma clip_inside (lo hi x : R) :
  fleb lo x = true -> fleb x hi = true -> clip lo hi x = x.
Proof.
  intros Hlo Hhi. unfold clip, np_maximum, np_minimum, fgeb.
  rewrite Hlo. simpl. by rewrite Hhi.
Qed.

(** X1 (the code's side of C2): [np.arccos] is applied to the dot product
    [F_prime @ V.T] as computed, with no clamping; the angle stored on a
    candidate is the arccos of that value, and the angles are those of the
    clamped computation whenever every dot product lies in [-1, 1]. *)
Theorem acute_angle_unclamped (self : t R) problem pop termination self' pop' ret :
  _do self problem pop termination = Some (self', pop', ret) ->
  exists ideal0 ideal1 niches,
    ideal self = Some ideal0 /\
    new_ideal ideal0 pop = Some ideal1 /\
    niches_of (V self) ideal1 pop = Some niches /\
    let argument := arccos_argument (V self) ideal1 pop in
    (forall i k, niches !! i = Some k ->
       exists c, pop' !! i = Some c /\
         Individual.theta c = Some (arccos ((argument !!! i) !!! k))) /\
    (Forall (Forall (fun x => fleb (fopp fone) x = true /\ fleb x fone = true)) argument ->
     acute_angle_of (V self) ideal1 pop = acute_angle_clamped (V self) ideal1 pop).
Proof.
  intros Hdo.
  destruct (_do_candidate _ _ _ _ _ _ _ Hdo)
    as (ideal0 & ideal1 & niches & Hi0 & Hi1 & Hn & Hlen & Hcand).
  exists ideal0, ideal1, niches. split; [done|]. split; [done|]. split; [done|].
  simpl. split.
  - intros i k Hik. destruct (Hcand i k Hik) as (c & Hc0 & Hc).
    eexists. split; [exact Hc|].
    assert (Hi : i < length (arccos_argument (V self) ideal1 pop)).
    { rewrite length_arccos_argument. by eapply lookup_lt_Some. }
    destruct (lookup_lt_is_Some_2 _ _ Hi) as [row Hrow].
    assert (Hk : k < length row).
    { rewrite (arccos_argument_row _ _ _ _ _ Hrow). by eapply niches_of_bound. }
    unfold with_selection_attrs, acute_angle_of.
    replace (Individual.theta (if decide _ then _ else _))
      with (Some ((map (map arccos) (arccos_argument (V self) ideal1 pop) !!! i) !!! k))
      by by case_decide.
    f_equal. rewrite (list_lookup_total_fmap (map arccos)) by done.
    rewrite (list_lookup_total_correct _ _ _ Hrow).
    by rewrite (list_lookup_total_fmap arccos).
  - intros Hin. unfold acute_angle_of, acute_angle_clamped.
    apply map_ext_Forall. eapply Forall_impl; [exact Hin|]. simpl.
    intros row Hrow. apply map_ext_Forall. eapply Forall_impl; [exact Hrow|]. simpl.
    intros x [Hlo Hhi]. by rewrite clip_inside.
Qed.
End AcuteAngle.

(** ** The life of an engine *)

Section EngineLife.
Context {R : Type} `{Num R} `{Libm R}.
Import APDSurvival.

Lemma length_calc_V (A : list (list R)) : length (calc_V A) = length A.
Proof.
  unfold calc_V, div_rows, norm_axis1. rewrite length_zip_with, length_map. lia.
Qed.

Lemma calc_gamma_Some (V : list (list R)) :
  2 <= length V -> exists gamma, calc_gamma V = Some gamma /\ length gamma = length V.
Proof.
  intros Hlen. unfold calc_gamma, column. rewrite decide_True by lia. simpl.
  eexists. split; [done|].
  unfold sorted_similarity, neg_similarity, matmul_T. by rewrite !length_map.
Qed.


(** X2: the constructor raises on fewer than two reference directions (the
    second column of the sorted similarities does not exist); on two or more
    it returns an engine with one unit direction and one neighbor angle per
    reference direction, the directions and alpha as given, and neither
    niches nor nadir. *)
Theorem init_needs_two_directions (ref_dirs : list (list R)) (alpha : R) :
  (length ref_dirs < 2 -> __init__ ref_dirs alpha = None) /\
  (2 <= length ref_dirs ->
   exists self, __init__ ref_dirs alpha = Some self /\
     length (V self) = length ref_dirs /\ length (gamma self) = length ref_dirs /\
     APDSurvival.ref_dirs self = ref_dirs /\ APDSurvival.alpha self = alpha /\
     niches self = None /\ nadir self = None).
Proof.
  unfold __init__. split.
  - intros Hlt. destruct (shape1 ref_dirs); simpl; [|done].
    rewrite calc_gamma_too_few; [done|]. by rewrite length_calc_V.
  - intros Hge. destruct (calc_gamma_Some (calc_V ref_dirs)) as (gamma & Hg & Hlen).
    { by rewrite length_calc_V. }
    rewrite length_calc_V in Hlen.
    destruct (shape1 ref_dirs) as [n_dim|] eqn:Hshape.
    2:{ destruct ref_dirs; simpl in *; [lia|done]. }
    cbn -[calc_V calc_gamma]. rewrite Hg. cbn -[calc_V].
    eexists. split; [done|]. cbn -[calc_V]. by rewrite length_calc_V.
Qed.

(** X3: the adaptation starts from the stored reference directions, not
    from the current V: adapting an adapted engine returns it unchanged, and
    an adaptation leaves ideal, nadir, reference directions, alpha and niches
    as they were. *)
Theorem adapt_idempotent (self self' : t R) :
  adapt self = Some self' ->
  adapt self' = Some self' /\
  ideal self' = ideal self /\ nadir self' = nadir self /\
  APDSurvival.ref_dirs self' = APDSurvival.ref_dirs self /\
  APDSurvival.alpha self' = APDSurvival.alpha self /\ niches self' = niches self.
Proof.
  unfold adapt. destruct (ideal self) as [ideal0|] eqn:Hi; [|by intros [= <-]; rewrite Hi].
  destruct (nadir self) as [nadir0|] eqn:Hn; [|by intros [= <-]; rewrite Hi, Hn].
  destruct (calc_gamma _) as [gamma'|] eqn:Hg; simpl; [|done].
  intros [= <-]. simpl. rewrite Hi, Hn, Hg. done.
Qed.

End EngineLife.

(** ** More on the selection *)

Section SelectionMore.
Context {R : Type} `{Num R} `{Libm R}.
Import APDSurvival.



(** Every candidate of the population has a niche. *)
Lemma niches_of_lookup V ideal (pop : list (Individual.t R)) niches i :
  niches_of V ideal pop = Some niches -> i < length pop ->
  exists k, niches !! i = Some k /\ k < length V.
Proof.
  intros Hn Hi. destruct (lookup_lt_is_Some_2 niches i) as [k Hk].
  - by rewrite (niches_of_length _ _ _ _ Hn).
  - exists k. split; [done|]. by eapply niches_of_bound.
Qed.

Lemma nti_lookup_total_ge niches n k :
  n <= k -> assign_niches 0 niches (replicate n []) !!! k = [].
Proof.
  intros Hk. rewrite list_lookup_total_alt, lookup_ge_None_2; [done|].
  by rewrite length_assign_niches, length_replicate.
Qed.

(** X6: the lists a selection call stores in [niches], one per direction,
    partition the indices of the population: every candidate is in the list
    of exactly one direction, every entry is an index of the population, and
    no list repeats an index. *)
Theorem niches_partition (self : t R) problem pop termination self' pop' ret :
  _do self problem pop termination = Some (self', pop', ret) ->
  exists nti,
    niches self' = Some nti /\ length nti = length (V self) /\
    (forall i, i < length pop ->
       exists k, k < length (V self) /\ i ∈ nti !!! k /\
                 forall k', i ∈ nti !!! k' -> k' = k) /\
    (forall k i, i ∈ nti !!! k -> i < length pop) /\
    (forall k, NoDup (nti !!! k)).
Proof.
  intros Hdo.
  apply _do_outcome in Hdo
    as (ideal0 & ideal1 & niches & nadir1 & Hi0 & Hi1 & Hn & _ & _ & _ & ->).
  eexists. split; [done|]. simpl.
  split; [by rewrite length_assign_niches, length_replicate|].
  set (n := length (V self)).
  assert (Hmem : forall k i, i ∈ assign_niches 0 niches (replicate n []) !!! k <->
                             k < n /\ niches !! i = Some k).
  { intros k i. destruct (decide (k < n)) as [Hk|Hk].
    - rewrite (nti_lookup_total _ _ _ Hk), elem_of_candidates_of. split.
      + intros (i' & -> & Hi'). done.
      + intros [_ Hi']. by exists i.
    - rewrite nti_lookup_total_ge by lia. split; [by intros ?%elem_of_nil|]. lia. }
  split; [|split].
  - intros i Hi. destruct (niches_of_lookup _ _ _ _ _ Hn Hi) as (k & Hk & Hlt).
    exists k. split; [done|]. split; [by apply Hmem|].
    intros k' [_ Hk']%Hmem. congruence.
  - intros k i [_ Hi]%Hmem. rewrite <- (niches_of_length _ _ _ _ Hn).
    by eapply lookup_lt_Some.
  - intros k. destruct (decide (k < n)) as [Hk|Hk].
    + rewrite (nti_lookup_total _ _ _ Hk). apply candidates_of_NoDup.
    + rewrite nti_lookup_total_ge by lia. constructor.
Qed.

(** The candidate at index [i] after a call. *)
Lemma _do_lookup (self : t R) problem pop termination self' pop' ret i c' :
  _do self problem pop termination = Some (self', pop', ret) ->
  pop' !! i = Some c' ->
  exists ideal0 ideal1 niches k c,
    ideal self = Some ideal0 /\ new_ideal ideal0 pop = Some ideal1 /\
    niches_of (V self) ideal1 pop = Some niches /\
    niches !! i = Some k /\ k < length (V self) /\ pop !! i = Some c /\
    c' = with_selection_attrs self problem (perc termination)
           (dist_to_ideal_of ideal1 pop) (acute_angle_of (V self) ideal1 pop)
           (assign_niches 0 niches (replicate (length (V self)) [])) k i c.
Proof.
  intros Hdo Hc'.
  destruct (_do_candidate _ _ _ _ _ _ _ Hdo)
    as (ideal0 & ideal1 & niches & Hi0 & Hi1 & Hn & Hlen & Hcand).
  assert (Hi : i < length pop) by (rewrite <- Hlen; by eapply lookup_lt_Some).
  destruct (niches_of_lookup _ _ _ _ _ Hn Hi) as (k & Hk & Hlt).
  destruct (Hcand i k Hk) as (c & Hc & Hc'').
  exists ideal0, ideal1, niches, k, c. repeat split; try done. congruence.
Qed.

(** The survivors are candidates of the population after the call. *)
Lemma _do_ret (self : t R) problem pop termination self' pop' ret r :
  _do self problem pop termination = Some (self', pop', ret) ->
  r ∈ ret ->
  exists s, pop' !! s = Some r /\ Individual.opt r = Some true.
Proof.
  intros Hdo Hr.
  destruct (_do_candidate _ _ _ _ _ _ _ Hdo)
    as (ideal0 & ideal1 & niches & Hi0 & Hi1 & Hn & Hlen & Hcand).
  apply _do_outcome in Hdo
    as (ideal0' & ideal1' & niches' & nadir1 & Hi0' & Hi1' & Hn' & Hpop & Hret & _).
  assert (ideal0' = ideal0) as -> by congruence.
  assert (ideal1' = ideal1) as -> by congruence.
  assert (niches' = niches) as -> by congruence.
  rewrite Hret in Hr. apply list_elem_of_fmap in Hr as (s & -> & Hs).
  apply list_elem_of_omap in Hs as (k & Hk%elem_of_seq & Hw).
  pose proof (niche_winner_spec self problem (perc termination)
                (dist_to_ideal_of ideal1 pop) (acute_angle_of (V self) ideal1 pop)
                niches (length (V self)) k ltac:(lia)) as Hspec.
  rewrite Hw in Hspec. destruct Hspec as [_ Hs].
  destruct (Hcand s k Hs) as (c & Hc & Hc').
  exists s. rewrite (list_lookup_total_correct _ _ _ Hc'). split; [done|].
  unfold niche_winner in Hw. case_decide; [|done]. injection Hw as <-.
  unfold with_selection_attrs. by rewrite decide_True.
Qed.

(** X7: a selection call changes no decision vector, objective vector or
    constraint violation: the population keeps its size, candidate by
    candidate these three are as before, all four attributes are set on every
    candidate, and the survivors are candidates of that population. *)
Theorem _do_keeps_candidates (self : t R) problem pop termination self' pop' ret :
  _do self problem pop termination = Some (self', pop', ret) ->
  length pop' = length pop /\
  (forall i c', pop' !! i = Some c' ->
     exists c, pop !! i = Some c /\
       Individual.X c' = Individual.X c /\ Individual.F c' = Individual.F c /\
       Individual.CV c' = Individual.CV c /\
       is_Some (Individual.theta c') /\ is_Some (Individual.apd c') /\
       is_Some (Individual.niche c') /\ is_Some (Individual.opt c')) /\
  (forall r, r ∈ ret -> r ∈ pop').
Proof.
  intros Hdo. split; [|split].
  - by destruct (_do_candidate _ _ _ _ _ _ _ Hdo) as (? & ? & ? & _ & _ & _ & ? & _).
  - intros i c' Hc'.
    destruct (_do_lookup _ _ _ _ _ _ _ _ _ Hdo Hc')
      as (ideal0 & ideal1 & niches & k & c & _ & _ & _ & _ & _ & Hc & ->).
    exists c. split; [done|]. unfold with_selection_attrs.
    case_decide; simpl; repeat split; eauto.
  - intros r Hr. destruct (_do_ret _ _ _ _ _ _ _ _ Hdo Hr) as (s & Hs & _).
    by eapply list_elem_of_lookup_2.
Qed.

(** X8: after a selection call the flag [opt] of a candidate is true when it
    is one of the returned survivors and false otherwise. *)
Theorem opt_flag_marks_survivors (self : t R) problem pop termination self' pop' ret :
  _do self problem pop termination = Some (self', pop', ret) ->
  forall i c', pop' !! i = Some c' ->
    (Individual.opt c' = Some true /\ c' ∈ ret) \/
    (Individual.opt c' = Some false /\ c' ∉ ret).
Proof.
  intros Hdo i c' Hc'.
  destruct (_do_lookup _ _ _ _ _ _ _ _ _ Hdo Hc')
    as (ideal0 & ideal1 & niches & k & c & Hi0 & Hi1 & Hn & Hk & Hlt & Hc & Hval).
  set (dist := dist_to_ideal_of ideal1 pop) in *.
  set (angle := acute_angle_of (V self) ideal1 pop) in *.
  set (nti := assign_niches 0 niches (replicate (length (V self)) [])) in *.
  destruct (decide (i = niche_survivor self problem (perc termination) dist angle
                         (nti !!! k) k)) as [Hi|Hi].
  - left. split.
    + rewrite Hval. unfold with_selection_attrs. fold dist angle nti.
      by rewrite decide_True.
    + pose proof Hdo as Hdo'.
      apply _do_outcome in Hdo'
        as (ideal0' & ideal1' & niches' & nadir1 & Hi0' & Hi1' & Hn' & Hpop & Hret & _).
      assert (ideal0' = ideal0) as -> by congruence.
      assert (ideal1' = ideal1) as -> by congruence.
      assert (niches' = niches) as -> by congruence.
      rewrite Hret. apply list_elem_of_fmap. exists i. split.
      * by rewrite (list_lookup_total_correct _ _ _ Hc').
      * apply list_elem_of_omap. exists k. split; [apply elem_of_seq; lia|].
        unfold niche_winner. fold dist angle nti. rewrite decide_True; [by rewrite Hi|].
        unfold nti. rewrite (nti_lookup_total _ _ _ Hlt).
        apply candidates_nonempty. by eapply list_elem_of_lookup_2.
  - right. assert (Hopt : Individual.opt c' = Some false).
    { rewrite Hval. unfold with_selection_attrs. fold dist angle nti.
      by rewrite decide_False. }
    split; [done|]. intros Hr.
    destruct (_do_ret _ _ _ _ _ _ _ _ Hdo Hr) as (s & _ & Hopt'). congruence.
Qed.

Lemma map_F_reset (pop : list (Individual.t R)) :
  map Individual.F (map Individual.reset pop) = map Individual.F pop.
Proof. rewrite map_map. by apply map_ext. Qed.

(** X9: the attributes an earlier selection left on the candidates have no
    influence: the call on the population with the attributes taken off gives
    the same engine, the same population and the same survivors. *)
Theorem _do_ignores_attributes (self : t R) problem pop termination :
  _do self problem (map Individual.reset pop) termination =
  _do self problem pop termination.
Proof.
  rewrite !_do_guarded.
  destruct (ideal self) as [ideal0|]; simpl; [|done].
  assert (Hideal : new_ideal ideal0 (map Individual.reset pop) = new_ideal ideal0 pop).
  { unfold new_ideal. by rewrite map_F_reset. }
  rewrite Hideal. destruct (new_ideal ideal0 pop) as [ideal1|]; simpl; [|done].
  assert (Hdist : dist_to_ideal_of ideal1 (map Individual.reset pop)
                  = dist_to_ideal_of ideal1 pop).
  { unfold dist_to_ideal_of. by rewrite map_F_reset. }
  assert (Hangle : acute_angle_of (V self) ideal1 (map Individual.reset pop)
                   = acute_angle_of (V self) ideal1 pop).
  { unfold acute_angle_of, arccos_argument. by rewrite map_F_reset, Hdist. }
  assert (Hniches : niches_of (V self) ideal1 (map Individual.reset pop)
                    = niches_of (V self) ideal1 pop).
  { unfold niches_of. by rewrite Hangle. }
  rewrite Hniches, Hdist, Hangle.
  destruct (niches_of (V self) ideal1 pop) as [niches|] eqn:Hn; simpl; [|done].
  destruct (py_pow (perc termination) (alpha self)) as [p|]; simpl; [|done].
  set (step := niche_population _ _ _ _ _ _).
  assert (Hpop : foldl step (map Individual.reset pop) (seq 0 (length (V self)))
                 = foldl step pop (seq 0 (length (V self)))).
  { apply list_eq. intros i. unfold step.
    rewrite !(niche_loop_lookup _ _ _ _ _ _ niches);
      try apply NoDup_seq;
      try (intros k Hk%elem_of_seq; apply nti_lookup_total; lia).
    rewrite list_lookup_fmap.
    destruct (niches !! i) as [k|] eqn:Hk.
    - assert (Hks : k ∈ seq 0 (length (V self))).
      { apply elem_of_seq. pose proof (niches_of_bound _ _ _ _ _ _ Hn Hk). lia. }
      rewrite !decide_True by done.
      destruct (pop !! i); simpl; [|done]. f_equal.
    - apply lookup_ge_None in Hk. rewrite (niches_of_length _ _ _ _ Hn) in Hk.
      by rewrite (lookup_ge_None_2 pop i Hk). }
  by rewrite Hpop.
Qed.
End SelectionMore.

(** ** The life of an engine, continued *)

Section EngineRun.
Context {R : Type} `{Num R} `{Libm R}.
Import APDSurvival.








End EngineRun.


Section SelectionOrder.
Context {R : Type} `{NumOrder R} `{Libm R}.
Import APDSurvival.

(** X10: every candidate is assigned to the direction of least angle, the
    first one when several are least, as long as none of its angles is NaN. *)
Theorem assigned_to_nearest_direction (self : t R) problem pop termination self' pop' ret :
  _do self problem pop termination = Some (self', pop', ret) ->
  exists ideal0 ideal1,
    ideal self = Some ideal0 /\ new_ideal ideal0 pop = Some ideal1 /\
    forall i c', pop' !! i = Some c' ->
      exists k row,
        Individual.niche c' = Some k /\
        acute_angle_of (V self) ideal1 pop !! i = Some row /\
        length row = length (V self) /\
        (Forall (fun x => feqb x x = true) row -> first_min row k).
Proof.
  intros Hdo.
  destruct (_do_candidate _ _ _ _ _ _ _ Hdo)
    as (ideal0 & ideal1 & niches & Hi0 & Hi1 & Hn & Hlen & Hcand).
  exists ideal0, ideal1. split; [done|]. split; [done|].
  intros i c' Hc'.
  assert (Hi : i < length pop) by (rewrite <- Hlen; by eapply lookup_lt_Some).
  destruct (niches_of_lookup _ _ _ _ _ Hn Hi) as (k & Hk & Hlt).
  destruct (Hcand i k Hk) as (c & Hc & Hc'').
  assert (c' = with_selection_attrs self problem (perc termination)
                 (dist_to_ideal_of ideal1 pop) (acute_angle_of (V self) ideal1 pop)
                 (assign_niches 0 niches (replicate (length (V self)) [])) k i c)
    as -> by congruence.
  unfold niches_of in Hn. apply mapM_Some in Hn.
  destruct (Forall2_lookup_r _ _ _ _ _ Hn Hk) as (row & Hrow & Harg).
  exists k, row. split; [|split; [done|split]].
  - unfold with_selection_attrs. by case_decide.
  - unfold acute_angle_of in Hrow. rewrite list_lookup_fmap in Hrow.
    destruct (arccos_argument (V self) ideal1 pop !! i) as [row0|] eqn:Hrow0;
      simpl in Hrow; [|done].
    injection Hrow as <-. rewrite length_map. by eapply arccos_argument_row.
  - intros Hnan. by apply argmin_first_min.
Qed.

(** X11: there is one distance to the ideal point per candidate, and every
    distance that is not NaN is at least the floor 1e-64, so the division that
    normalises the objective vector is never by zero. *)
Theorem dist_to_ideal_floor (ideal : list R) (pop : list (Individual.t R)) :
  length (dist_to_ideal_of ideal pop) = length pop /\
  forall i d, dist_to_ideal_of ideal pop !! i = Some d ->
    feqb d d = true -> fleb feps d = true.
Proof.
  split; [apply length_dist_to_ideal_of|].
  intros i d Hd Hnan. unfold dist_to_ideal_of in Hd. rewrite list_lookup_fmap in Hd.
  destruct (norm_axis1 _ !! i) as [d0|]; simpl in Hd; [|done].
  injection Hd as <-. unfold floor_dist in *.
  destruct (fltb d0 feps) eqn:Hlt.
  - by apply fleb_refl.
  - rewrite fltb_fleb in Hlt. apply andb_false_iff in Hlt as [Hle|Hge].
    + apply fleb_false_flip; [done|apply feps_not_nan|done].
    + by apply negb_false_iff in Hge.
Qed.

Lemma np_maximum_cases (a b : R) : np_maximum a b = a \/ np_maximum a b = b.
Proof. unfold np_maximum. destruct (fgeb a b || is_nan a); auto. Qed.

Lemma np_maximum_ge_l (a b : R) :
  feqb a a = true -> feqb b b = true -> fleb a (np_maximum a b) = true.
Proof.
  intros Ha Hb. unfold np_maximum, fgeb.
  destruct (fleb b a) eqn:Hba; simpl; [by apply fleb_refl|].
  rewrite (proj2 (is_nan_false a) Ha). by apply fleb_false_flip.
Qed.

(** [A.max(axis=0)] on rows of one length without NaN. *)
Lemma foldl_maximum_spec (rs : list (list R)) (acc : list R) :
  Forall (fun x => feqb x x = true) acc ->
  Forall (fun r => length r = length acc /\ Forall (fun x => feqb x x = true) r) rs ->
  length (foldl (ew np_maximum) acc rs) = length acc /\
  forall j x, foldl (ew np_maximum) acc rs !! j = Some x ->
    (forall y, acc !! j = Some y -> fleb y x = true) /\
    (forall r y, r ∈ rs -> r !! j = Some y -> fleb y x = true) /\
    (acc !! j = Some x \/ exists r, r ∈ rs /\ r !! j = Some x).
Proof.
  revert acc. induction rs as [|r rs IH]; intros acc Hacc Hrs; simpl.
  - split; [done|]. intros j x Hx. split; [|split].
    + intros y Hy. assert (y = x) as -> by congruence.
      apply fleb_refl. by eapply (Forall_lookup_1 _ _ _ _ Hacc).
    + by intros r y ?%elem_of_nil.
    + by left.
  - apply Forall_cons in Hrs as [[Hlen Hr] Hrs].
    assert (Hpt : forall j m, ew np_maximum acc r !! j = Some m ->
              exists y z, acc !! j = Some y /\ r !! j = Some z /\ feqb m m = true /\
                fleb y m = true /\ fleb z m = true /\ (m = y \/ m = z)).
    { intros j m (y & z & -> & Hy & Hz)%lookup_zip_with_Some.
      pose proof (Forall_lookup_1 _ _ _ _ Hacc Hy) as Hny.
      pose proof (Forall_lookup_1 _ _ _ _ Hr Hz) as Hnz. simpl in Hny, Hnz.
      exists y, z. split; [done|]. split; [done|]. split.
      { by destruct (np_maximum_cases y z) as [-> | ->]. }
      split; [by apply np_maximum_ge_l|]. split; [by apply np_maximum_ge_r|].
      apply np_maximum_cases. }
    assert (Hlen' : length (ew np_maximum acc r) = length acc).
    { unfold ew. rewrite length_zip_with. lia. }
    destruct (IH (ew np_maximum acc r)) as (Hlen'' & Hpt'').
    { apply Forall_lookup. intros j m Hm.
      by destruct (Hpt j m Hm) as (? & ? & _ & _ & ? & _). }
    { eapply Forall_impl; [exact Hrs|]. simpl. intros r' [? ?]. split; [congruence|done]. }
    split; [congruence|].
    intros j x Hx. destruct (Hpt'' j x Hx) as (Hacc' & Hrs' & Hin).
    assert (Hmid : exists mid, ew np_maximum acc r !! j = Some mid).
    { apply lookup_lt_is_Some. rewrite <- Hlen''. by eapply lookup_lt_Some. }
    destruct Hmid as [mid Hmid].
    destruct (Hpt j mid Hmid) as (y & z & Hy & Hz & _ & Hle_y & Hle_z & Hcase).
    pose proof (Hacc' mid Hmid) as Hmx.
    split; [|split].
    + intros y' Hy'. assert (y' = y) as -> by congruence. by eapply fleb_trans.
    + intros r' y' [->|Hr']%elem_of_cons Hy'.
      * assert (y' = z) as -> by congruence. by eapply fleb_trans.
      * by eapply Hrs'.
    + destruct Hin as [Hin | (r' & Hr' & Hin)].
      * assert (x = mid) as -> by congruence.
        destruct Hcase as [-> | ->]; [by left|]. right. exists r. split; [left|done].
      * right. exists r'. split; [by right|done].
Qed.

(** X12: after a selection call on objective values without NaN the nadir
    point is the component-wise maximum over the returned survivors, each
    component attained by one of them, and the ideal point lies component-wise
    below it. *)
Theorem nadir_bounds_survivors (self : t R) problem pop termination self' pop' ret ideal0 :
  _do self problem pop termination = Some (self', pop', ret) ->
  ideal self = Some ideal0 ->
  Forall (fun x => feqb x x = true) ideal0 ->
  Forall (fun c => length (Individual.F c) = length ideal0 /\
                   Forall (fun x => feqb x x = true) (Individual.F c)) pop ->
  exists ideal1 nadir1,
    ideal self' = Some ideal1 /\ nadir self' = Some nadir1 /\
    Forall2 (fun lo hi => fleb lo hi = true) ideal1 nadir1 /\
    forall j x, nadir1 !! j = Some x ->
      (forall r y, r ∈ ret -> Individual.F r !! j = Some y -> fleb y x = true) /\
      (exists r, r ∈ ret /\ Individual.F r !! j = Some x).
Proof.
  intros Hdo Hi0 Hnan0 Hpop.
  assert (Hret : forall r, r ∈ ret -> exists c, c ∈ pop /\ Individual.F r = Individual.F c).
  { intros r Hr. destruct (_do_ret _ _ _ _ _ _ _ _ Hdo Hr) as (s & Hs & _).
    destruct (_do_lookup _ _ _ _ _ _ _ _ _ Hdo Hs)
      as (? & ? & ? & k & c & _ & _ & _ & _ & _ & Hc & ->).
    exists c. split; [by eapply list_elem_of_lookup_2|].
    unfold with_selection_attrs. by case_decide. }
  apply _do_outcome in Hdo
    as (ideal0' & ideal1 & niches & nadir1 & Hi0' & Hi1 & _ & _ & _ & Hnadir & ->).
  assert (ideal0' = ideal0) as -> by congruence.
  destruct (new_ideal_spec _ _ _ Hi1 Hnan0 Hpop) as (Hlen1 & Hnan1 & Hpt1).
  exists ideal1, nadir1. split; [done|]. split; [done|].
  assert (Hok : Forall (fun r => length (Individual.F r) = length ideal0 /\
                                 Forall (fun x => feqb x x = true) (Individual.F r)) ret).
  { apply Forall_forall. intros r Hr. destruct (Hret r Hr) as (c & Hc & ->).
    rewrite Forall_forall in Hpop. by apply Hpop. }
  unfold max_axis0, reduce_rows in Hnadir.
  destruct ret as [|r0 ret]; simpl in Hnadir; [done|]. injection Hnadir as <-.
  apply Forall_cons in Hok as [[Hl0 Hn0] Hok].
  destruct (foldl_maximum_spec (map Individual.F ret) (Individual.F r0))
    as (Hlen & Hpt); [done| |].
  { apply Forall_fmap. eapply Forall_impl; [exact Hok|]. simpl.
    intros r [? ?]. split; [congruence|done]. }
  assert (Hattained : forall j x,
            foldl (ew np_maximum) (Individual.F r0) (map Individual.F ret) !! j = Some x ->
            exists r, r ∈ r0 :: ret /\ Individual.F r !! j = Some x).
  { intros j x Hx. destruct (Hpt j x Hx) as (_ & _ & [Hin | (f & Hf & Hin)]).
    - exists r0. split; [left|done].
    - apply list_elem_of_fmap in Hf as (r & -> & Hr). exists r. split; [by right|done]. }
  split.
  - apply Forall2_same_length_lookup_2; [congruence|].
    intros j lo hi Hlo Hhi. destruct (Hattained j hi Hhi) as (r & Hr & Hrj).
    destruct (Hret r Hr) as (c & Hc & HF). rewrite HF in Hrj.
    destruct (Hpt1 j lo Hlo) as (_ & Hseen & _). by eapply Hseen.
  - intros j x Hx. split; [|by apply Hattained].
    destruct (Hpt j x Hx) as (H0j & Hrs & _).
    intros r y [->|Hr]%elem_of_cons Hy; [by apply H0j|].
    apply (Hrs (Individual.F r)); [|done]. apply list_elem_of_fmap. by exists r.
Qed.
End SelectionOrder.

(** ** More on the optimizer shell *)

Section ShellMore.
Context {R : Type} `{Num R} `{Libm R}.
Import RVEA.

Variable default_ref_dirs : nat -> list (list R).
Variable super_advance : t R -> option (t R).
Variable feasible : Individual.t R -> bool.

(** X13: after the constructor and the setup the optimizer holds the given
    reference directions or, without any, the default ones of the problem; the
    population size is the number of directions unless it was given together
    with the directions; without given directions the number of offsprings
    is the number of directions too; the counter is 1; a given survival is
    kept and a missing one is built from the directions and alpha, which takes
    two directions. *)
Theorem setup_binds_sizes (rd : option (list (list R))) (alpha adapt_freq : R)
    (ps n_off : option nat) (surv : option (APDSurvival.t R))
    (termination : Termination R) problem (self : t R) :
  _setup default_ref_dirs
         (__init__ rd alpha adapt_freq ps n_off surv termination) problem = Some self ->
  let dirs := default (default_ref_dirs (n_obj problem)) rd in
  ref_dirs self = Some dirs /\
  pop_size self =
    match rd, ps with
    | Some _, Some p => Some p
    | _, _ => Some (length dirs)
    end /\
  (rd = None -> n_offsprings self = Some (length dirs)) /\
  n_adapt self = Some 1 /\
  match surv with
  | Some s => survival self = Some s
  | None => exists s, survival self = Some s /\
                      APDSurvival.__init__ dirs alpha = Some s /\
                      2 <= length dirs
  end.
Proof.
  unfold _setup, __init__. simpl.
  destruct rd as [d|]; simpl.
  - destruct surv as [s|]; simpl.
    + intros [= <-]. simpl. by destruct ps.
    + destruct (APDSurvival.__init__ d alpha) as [s|] eqn:Hs; simpl; [|done].
      intros [= <-]. simpl. repeat split; try by destruct ps.
      exists s. split; [done|]. split; [done|].
      destruct (decide (2 <= length d)) as [|Hlt]; [done|].
      unfold APDSurvival.__init__ in Hs.
      destruct (shape1 d); simpl in Hs; [|done].
      unfold calc_gamma, column in Hs. rewrite decide_False in Hs; [done|].
      unfold calc_V, div_rows, norm_axis1. rewrite length_zip_with, length_map. lia.
  - destruct surv as [s|]; simpl.
    + intros [= <-]. done.
    + destruct (APDSurvival.__init__ _ alpha) as [s|] eqn:Hs; simpl; [|done].
      intros [= <-]. simpl. repeat split; try done.
      exists s. split; [done|]. split; [done|].
      destruct (decide (2 <= length (default_ref_dirs (n_obj problem)))) as [|Hlt]; [done|].
      unfold APDSurvival.__init__ in Hs.
      destruct (shape1 _); simpl in Hs; [|done].
      unfold calc_gamma, column in Hs. rewrite decide_False in Hs; [done|].
      unfold calc_V, div_rows, norm_axis1. rewrite length_zip_with, length_map. lia.
Qed.

(** The counter over one advance call. *)
Lemma _advance_counter (self self' : t R) n :
  (forall a a', super_advance a = Some a' -> n_adapt a' = n_adapt a) ->
  n_adapt self = Some n ->
  _advance super_advance self = Some self' ->
  exists n', n_adapt self' = Some n' /\ n <= n' <= n + 1.
Proof.
  intros Hsuper Hn. unfold _advance.
  destruct (super_advance self) as [self1|] eqn:Hs; simpl; [|done].
  destruct (py_div _ _) as [quotient|]; simpl; [|done].
  rewrite (Hsuper _ _ Hs), Hn. simpl.
  destruct (fgeb _ _).
  - destruct (survival self1) as [s|]; simpl; [|done].
    destruct (APDSurvival.adapt s); simpl; [|done].
    intros [= <-]. exists (n + 1). simpl. split; [done|lia].
  - intros [= <-]. exists n. rewrite (Hsuper _ _ Hs). split; [done|lia].
Qed.

(** X14: when the generational step leaves the counter alone, [m] advance
    calls raise it by at most [m] and never lower it: one adaptation per call
    at most. *)
Theorem advances_counter (m : nat) (self self' : t R) n :
  (forall a a', super_advance a = Some a' -> n_adapt a' = n_adapt a) ->
  n_adapt self = Some n ->
  advances super_advance m self = Some self' ->
  exists n', n_adapt self' = Some n' /\ n <= n' <= n + m.
Proof.
  intros Hsuper. revert self n. induction m as [|m IH]; intros self n Hn; simpl.
  - intros [= <-]. exists n. split; [done|lia].
  - destruct (_advance super_advance self) as [self1|] eqn:Hadv; simpl; [|done].
    intros Hrun.
    destruct (_advance_counter _ _ _ Hsuper Hn Hadv) as (n1 & Hn1 & Hb1).
    destruct (IH self1 n1 Hn1 Hrun) as (n' & Hn' & Hb'). exists n'. split; [done|lia].
Qed.

(** X15: on an empty population [_set_optimum] raises (argmin of an empty
    sequence); on any other it changes only [opt], which becomes a non-empty
    list of candidates of the population. *)
Theorem set_optimum_returns (self : t R) :
  (pop self = [] -> _set_optimum feasible self = None) /\
  (pop self <> [] ->
   exists o,
     _set_optimum feasible self =
       Some (mk (ref_dirs self) (alpha self) (adapt_freq self) (pop_size self)
             (n_offsprings self) (survival self) (n_adapt self)
             (termination self) (pop self) (Some o)) /\
     o <> [] /\ forall c, c ∈ o -> c ∈ pop self).
Proof.
  unfold _set_optimum. split.
  - intros ->. done.
  - intros Hne. destruct (has_feasible feasible (pop self)); simpl.
    + exists (pop self). done.
    + destruct (argmin (map Individual.CV (pop self))) as [i|] eqn:Hi.
      2:{ destruct (pop self); [done|]. discriminate. }
      simpl. eexists. split; [done|]. split; [done|].
      intros c ->%list_elem_of_singleton.
      apply argmin_bound in Hi. rewrite length_map in Hi.
      by apply list_elem_of_lookup_total_2.
Qed.
End ShellMore.


(** * Examples *)

Lemma _do_preserves_geometry_witness :
  exists out,
    APDSurvival._do Demo.engine Demo.problem Demo.pop1 Demo.termination1 = Some out /\
    APDSurvival.V out.1.1 = APDSurvival.V Demo.engine /\
    APDSurvival.gamma out.1.1 = APDSurvival.gamma Demo.engine /\
    APDSurvival.ref_dirs out.1.1 = APDSurvival.ref_dirs Demo.engine /\
    APDSurvival.alpha out.1.1 = APDSurvival.alpha Demo.engine.
Proof.
  eexists. split; [vm_compute; reflexivity|].
  eapply (_do_preserves_geometry Demo.engine Demo.problem Demo.pop1 Demo.termination1).
  vm_compute. reflexivity.
Defined.

Lemma _do_unrecognised_termination_witness :
  is_Some (APDSurvival._do Demo.engine1 Demo.problem Demo.pop2 Demo.termination2) /\
  forall ty,
    APDSurvival._do Demo.engine1 Demo.problem Demo.pop2 Demo.termination2 =
    APDSurvival._do Demo.engine1 Demo.problem Demo.pop2 (mkTermination ty 0.75%float).
Proof.
  apply (_do_unrecognised_termination Demo.engine1 Demo.problem Demo.pop2 0.75%float).
  - discriminate.
  - discriminate.
  - exists 2, [0.25; 0.5]%float. repeat split; repeat constructor.
  - exists 0.5625%float. vm_compute. reflexivity.
Defined.

Lemma adapt_before_select_witness :
  (APDSurvival.ideal Demo.engine = None \/ APDSurvival.nadir Demo.engine = None) /\
  APDSurvival.adapt Demo.engine = Some Demo.engine.
Proof.
  apply (adapt_before_select Demo.ref_dirs 2%float Demo.engine).
  vm_compute. reflexivity.
Defined.

Lemma survivor_count_witness :
  exists out,
    APDSurvival._do Demo.engine1 Demo.problem Demo.pop2 Demo.termination2 = Some out /\
    map Individual.niche out.2 = [Some 0; Some 2] /\
    length out.2 = 2 /\ length out.2 <= 3.
Proof.
  eexists. split; [vm_compute; reflexivity|].
  edestruct (survivor_count Demo.engine1 Demo.problem Demo.pop2 Demo.termination2)
    as (ideal0 & ideal1 & niches & Hi0 & Hi1 & Hn & Hmap & Hlen & Hle);
    [vm_compute; reflexivity|].
  injection Hi0 as <-.
  vm_compute in Hi1. injection Hi1 as <-.
  vm_compute in Hn. injection Hn as <-.
  exact (conj Hmap (conj Hlen Hle)).
Defined.



Lemma advance_cadence_witness :
  RVEA.n_adapt Demo.algorithm = Some 1 /\
  RVEA._advance Some Demo.algorithm = Some Demo.algorithm1 /\
  RVEA.n_adapt Demo.algorithm1 = Some 2 /\
  RVEA._advance Some Demo.algorithm1 = Some Demo.algorithm2 /\
  RVEA.n_adapt Demo.algorithm2 = Some 3 /\
  RVEA._advance Some Demo.algorithm_never = None.
Proof.
  split; [reflexivity|].
  pose proof (advance_cadence (fun _ => Demo.ref_dirs) Some) as [_ Hstep].
  assert (Hadapt : APDSurvival.adapt Demo.engine_selected = Some Demo.engine1)
    by (vm_compute; reflexivity).
  assert (Hadapt1 : APDSurvival.adapt Demo.engine1 = Some Demo.engine1)
    by (vm_compute; reflexivity).
  assert (Hfreq : feqb (RVEA.adapt_freq Demo.algorithm) fzero = false)
    by (vm_compute; reflexivity).
  assert (Hdue : fgeb (fdiv (perc (RVEA.termination Demo.algorithm))
                            (RVEA.adapt_freq Demo.algorithm)) (of_nat 1) = true)
    by (vm_compute; reflexivity).
  assert (Hdue1 : fgeb (fdiv (perc (RVEA.termination Demo.algorithm1))
                             (RVEA.adapt_freq Demo.algorithm1)) (of_nat 2) = true)
    by (vm_compute; reflexivity).
  split; [|split; [reflexivity|split; [|split; [reflexivity|]]]].
  - destruct (Hstep Demo.algorithm Demo.algorithm 1 eq_refl eq_refl) as [_ Hnz].
    pose proof (Hnz Hfreq) as Hc. cbv zeta in Hc. destruct Hc as (_ & Hd & _).
    exact (Hd Hdue _ _ eq_refl Hadapt).
  - destruct (Hstep Demo.algorithm1 Demo.algorithm1 2 eq_refl eq_refl) as [_ Hnz].
    pose proof (Hnz Hfreq) as Hc. cbv zeta in Hc. destruct Hc as (_ & Hd & _).
    exact (Hd Hdue1 _ _ eq_refl Hadapt1).
  - destruct (Hstep Demo.algorithm_never Demo.algorithm_never 1 eq_refl eq_refl)
      as [Hz _].
    apply Hz. vm_compute. reflexivity.
Defined.

Lemma set_optimum_spec_witness :
  exists c self',
    Demo.infeasible_pop !! 1 = Some c /\
    RVEA._set_optimum Demo.feasible Demo.algorithm_infeasible = Some self' /\
    RVEA.opt self' = Some [c] /\ RVEA.pop self' = Demo.infeasible_pop.
Proof.
  destruct (set_optimum_spec Demo.feasible Demo.algorithm_infeasible) as [_ Hinf].
  destruct Hinf as (i & c & Hc & Hmin & Hopt).
  - reflexivity.
  - discriminate.
  - repeat constructor.
  - assert (i = 1) as ->.
    { destruct i as [|[|[|[|i]]]]; try done; exfalso.
      + destruct (Hmin 1 _ eq_refl) as [Hle _]. injection Hc as <-. vm_compute in Hle. done.
      + destruct (Hmin 1 _ eq_refl) as [Hle _]. injection Hc as <-. vm_compute in Hle. done.
      + destruct (Hmin 1 _ eq_refl) as [_ Hlt]. injection Hc as <-.
        specialize (Hlt ltac:(lia)). vm_compute in Hlt. done. }
    eexists c, _. split; [done|]. split; [exact Hopt|]. split; reflexivity.
Defined.

Lemma ideal_point_monotone_witness :
  APDSurvival.ideal Demo.engine = Some [infinity; infinity] /\
  exists self' ideal1,
    APDSurvival.selects Demo.engine Demo.problem
      [(Demo.pop1, Demo.termination1); (Demo.pop2, Demo.termination2)] = Some self' /\
    APDSurvival.ideal self' = Some ideal1 /\
    Forall2 (fun new old => fleb new old = true) ideal1 [infinity; infinity].
Proof.
  split; [reflexivity|].
  destruct (ideal_point_monotone (R := float)) as [_ Hrun].
  destruct (APDSurvival.selects Demo.engine Demo.problem
              [(Demo.pop1, Demo.termination1); (Demo.pop2, Demo.termination2)])
    as [self'|] eqn:Hsel; [|vm_compute in Hsel; discriminate].
  destruct (Hrun Demo.engine self' Demo.problem _ [infinity; infinity] Hsel eq_refl)
    as (ideal1 & Hi1 & Hmono & _).
  - repeat constructor.
  - repeat (first [apply Forall_nil_2 | apply Forall_cons_2 | split
                  | vm_compute; reflexivity]).
  - exists self', ideal1. split; [reflexivity|]. split; [exact Hi1|exact Hmono].
Defined.



Lemma acute_angle_unclamped_witness :
  exists out c,
    APDSurvival._do Demo.engine Demo.problem Demo.pop1 Demo.termination1 = Some out /\
    out.1.2 !! 3 = Some c /\
    Individual.theta c =
      Some (arccos ((APDSurvival.arccos_argument (APDSurvival.V Demo.engine)
                       [0.25; 0.5]%float Demo.pop1 !!! 3) !!! 0)).
Proof.
  eexists.
  edestruct (acute_angle_unclamped Demo.engine Demo.problem Demo.pop1 Demo.termination1)
    as (ideal0 & ideal1 & niches & Hi0 & Hi1 & Hn & Hall & _);
    [vm_compute; reflexivity|].
  injection Hi0 as <-.
  vm_compute in Hi1. injection Hi1 as <-.
  vm_compute in Hn. injection Hn as <-.
  destruct (Hall 3 0 eq_refl) as (c & Hc & Htheta).
  exists c. split; [reflexivity|]. split; [exact Hc|exact Htheta].
Defined.

(** On a candidate that lies on a reference direction the dot product
    handed to arccos is 1.0000000000000002: it is not clamped, the clamped
    value differs from it, and the angle the selection stores is NaN. *)
Lemma arccos_argument_exceeds_one :
  exists x out c t,
    (APDSurvival.arccos_argument (APDSurvival.V Demo.skew_engine)
       [0; 0]%float Demo.skew_pop !!! 0) !!! 0 = x /\
    fltb fone x = true /\
    APDSurvival.clip (fopp fone) fone x <> x /\
    APDSurvival._do Demo.skew_engine Demo.problem Demo.skew_pop Demo.termination1
      = Some out /\
    APDSurvival.new_ideal [infinity; infinity] Demo.skew_pop = Some [0; 0]%float /\
    out.1.2 !! 0 = Some c /\ Individual.theta c = Some t /\ is_nan t = true.
Proof.
  eexists _, _, _, _. split; [vm_compute; reflexivity|].
  split; [vm_compute; reflexivity|]. split.
  { vm_compute. intros Heq.
    assert (Hb : PrimFloat.ltb 1 1 = PrimFloat.ltb 1 0x1.0000000000001p+0) by by rewrite Heq.
    vm_compute in Hb. discriminate. }
  split; [vm_compute; reflexivity|]. split; [vm_compute; reflexivity|].
  split; [vm_compute; reflexivity|]. split; [vm_compute; reflexivity|].
  vm_compute. reflexivity.
Qed.

Lemma adapt_idempotent_witness :
  APDSurvival.adapt Demo.engine_selected = Some Demo.engine1 /\
  APDSurvival.adapt Demo.engine1 = Some Demo.engine1 /\
  APDSurvival.ideal Demo.engine1 = APDSurvival.ideal Demo.engine_selected /\
  APDSurvival.nadir Demo.engine1 = APDSurvival.nadir Demo.engine_selected.
Proof.
  assert (Hadapt : APDSurvival.adapt Demo.engine_selected = Some Demo.engine1)
    by (vm_compute; reflexivity).
  destruct (adapt_idempotent Demo.engine_selected Demo.engine1 Hadapt)
    as (Hagain & Hideal & Hnadir & _).
  exact (conj Hadapt (conj Hagain (conj Hideal Hnadir))).
Defined.



Lemma niches_partition_witness :
  exists nti,
    APDSurvival.niches Demo.outcome1.1.1 = Some nti /\ length nti = 3 /\
    (forall i, i < 4 ->
       exists k, k < 3 /\ i ∈ nti !!! k /\ forall k', i ∈ nti !!! k' -> k' = k) /\
    (forall k, NoDup (nti !!! k)).
Proof.
  assert (Hdo : APDSurvival._do Demo.engine Demo.problem Demo.pop1 Demo.termination1
                 = Some (Demo.outcome1.1.1, Demo.outcome1.1.2, Demo.outcome1.2))
    by (vm_compute; reflexivity).
  destruct (niches_partition Demo.engine Demo.problem Demo.pop1 Demo.termination1
              Demo.outcome1.1.1 Demo.outcome1.1.2 Demo.outcome1.2 Hdo)
    as (nti & Hnti & Hlen & Hone & _ & Hnodup).
  exists nti. exact (conj Hnti (conj Hlen (conj Hone Hnodup))).
Defined.

Lemma _do_keeps_candidates_witness :
  length Demo.outcome1.1.2 = 4 /\
  map Individual.F Demo.outcome1.1.2 = map Individual.F Demo.pop1 /\
  (forall i c', Demo.outcome1.1.2 !! i = Some c' ->
     exists c, Demo.pop1 !! i = Some c /\ Individual.F c' = Individual.F c /\
               is_Some (Individual.apd c')) /\
  (forall r, r ∈ Demo.outcome1.2 -> r ∈ Demo.outcome1.1.2).
Proof.
  assert (Hdo : APDSurvival._do Demo.engine Demo.problem Demo.pop1 Demo.termination1
                 = Some (Demo.outcome1.1.1, Demo.outcome1.1.2, Demo.outcome1.2))
    by (vm_compute; reflexivity).
  destruct (_do_keeps_candidates Demo.engine Demo.problem Demo.pop1 Demo.termination1
              Demo.outcome1.1.1 Demo.outcome1.1.2 Demo.outcome1.2 Hdo)
    as (Hlen & Hkeep & Hret).
  split; [exact Hlen|]. split; [reflexivity|]. split; [|exact Hret].
  intros i c' Hc'. destruct (Hkeep i c' Hc') as (c & Hc & _ & HF & _ & _ & Hapd & _).
  exists c. exact (conj Hc (conj HF Hapd)).
Defined.

Lemma opt_flag_marks_survivors_witness :
  map Individual.opt Demo.outcome1.1.2 = [Some false; Some true; Some true; Some true] /\
  forall i c', Demo.outcome1.1.2 !! i = Some c' ->
    (Individual.opt c' = Some true /\ c' ∈ Demo.outcome1.2) \/
    (Individual.opt c' = Some false /\ c' ∉ Demo.outcome1.2).
Proof.
  assert (Hdo : APDSurvival._do Demo.engine Demo.problem Demo.pop1 Demo.termination1
                 = Some (Demo.outcome1.1.1, Demo.outcome1.1.2, Demo.outcome1.2))
    by (vm_compute; reflexivity).
  split; [reflexivity|].
  exact (opt_flag_marks_survivors Demo.engine Demo.problem Demo.pop1 Demo.termination1
           Demo.outcome1.1.1 Demo.outcome1.1.2 Demo.outcome1.2 Hdo).
Defined.

Lemma assigned_to_nearest_direction_witness :
  exists c' k row,
    Demo.outcome1.1.2 !! 3 = Some c' /\ Individual.niche c' = Some k /\
    APDSurvival.acute_angle_of (APDSurvival.V Demo.engine) [0.25; 0.5]%float Demo.pop1 !! 3
      = Some row /\
    first_min row k.
Proof.
  assert (Hdo : APDSurvival._do Demo.engine Demo.problem Demo.pop1 Demo.termination1
                 = Some (Demo.outcome1.1.1, Demo.outcome1.1.2, Demo.outcome1.2))
    by (vm_compute; reflexivity).
  destruct (assigned_to_nearest_direction Demo.engine Demo.problem Demo.pop1
              Demo.termination1 Demo.outcome1.1.1 Demo.outcome1.1.2 Demo.outcome1.2 Hdo)
    as (ideal0 & ideal1 & Hi0 & Hi1 & Hall).
  injection Hi0 as <-.
  vm_compute in Hi1. injection Hi1 as <-.
  destruct (Hall 3 _ eq_refl) as (k & row & Hk & Hrow & _ & Hmin).
  eexists _, k, row. split; [reflexivity|]. split; [exact Hk|]. split; [exact Hrow|].
  apply Hmin. vm_compute in Hrow. injection Hrow as <-.
  repeat (first [apply Forall_nil_2 | apply Forall_cons_2 | vm_compute; reflexivity]).
Defined.

Lemma dist_to_ideal_floor_witness :
  length (APDSurvival.dist_to_ideal_of [0.25; 0.5]%float Demo.pop1) = 4 /\
  forall i d,
    APDSurvival.dist_to_ideal_of [0.25; 0.5]%float Demo.pop1 !! i = Some d ->
    feqb d d = true -> fleb feps d = true.
Proof.
  exact (dist_to_ideal_floor (R := float) [0.25; 0.5]%float Demo.pop1).
Defined.

Lemma nadir_bounds_survivors_witness :
  exists ideal1 nadir1,
    APDSurvival.ideal Demo.outcome1.1.1 = Some ideal1 /\
    APDSurvival.nadir Demo.outcome1.1.1 = Some nadir1 /\
    Forall2 (fun lo hi => fleb lo hi = true) ideal1 nadir1 /\
    forall j x, nadir1 !! j = Some x ->
      (forall r y, r ∈ Demo.outcome1.2 -> Individual.F r !! j = Some y ->
                   fleb y x = true) /\
      (exists r, r ∈ Demo.outcome1.2 /\ Individual.F r !! j = Some x).
Proof.
  apply (nadir_bounds_survivors Demo.engine Demo.problem Demo.pop1 Demo.termination1
           Demo.outcome1.1.1 Demo.outcome1.1.2 Demo.outcome1.2 [infinity; infinity]).
  - vm_compute. reflexivity.
  - reflexivity.
  - repeat constructor.
  - repeat (first [apply Forall_nil_2 | apply Forall_cons_2 | split
                  | vm_compute; reflexivity]).
Defined.

Lemma setup_binds_sizes_witness :
  RVEA._setup Demo.default_ref_dirs Demo.unset Demo.problem = Some Demo.algorithm0 /\
  RVEA.ref_dirs Demo.algorithm0 = Some Demo.ref_dirs /\
  RVEA.pop_size Demo.algorithm0 = Some 3 /\
  RVEA.n_offsprings Demo.algorithm0 = Some 3 /\
  RVEA.n_adapt Demo.algorithm0 = Some 1 /\
  RVEA.survival Demo.algorithm0 = Some Demo.engine.
Proof.
  assert (Hsetup : RVEA._setup Demo.default_ref_dirs Demo.unset Demo.problem
                   = Some Demo.algorithm0) by (vm_compute; reflexivity).
  destruct (setup_binds_sizes Demo.default_ref_dirs None 2%float
              0x1.999999999999ap-4%float None None None Demo.termination1
              Demo.problem Demo.algorithm0 Hsetup)
    as (Hdirs & Hsize & Hoff & Hn & s & Hs & Hinit & _).
  split; [exact Hsetup|]. split; [exact Hdirs|]. split; [exact Hsize|].
  split; [exact (Hoff eq_refl)|]. split; [exact Hn|].
  rewrite Hs. rewrite <- Hinit. vm_compute. reflexivity.
Defined.

Lemma advances_counter_witness :
  RVEA.advances Some 2 Demo.algorithm = Some Demo.algorithm2 /\
  exists n', RVEA.n_adapt Demo.algorithm2 = Some n' /\ 1 <= n' <= 1 + 2.
Proof.
  assert (Hrun : RVEA.advances Some 2 Demo.algorithm = Some Demo.algorithm2)
    by (vm_compute; reflexivity).
  split; [exact Hrun|].
  apply (advances_counter Some 2 Demo.algorithm Demo.algorithm2 1).
  - intros a a' Heq. injection Heq as <-. reflexivity.
  - reflexivity.
  - exact Hrun.
Defined.
